(** * Huffman coding engine of [haffman_method.py]

    Shallow embedding of the classes [Node], [HuffmanMethod] and
    [HuffmanBasedProcessor], and the properties of the coding engine.

    Conventions of the embedding.
    - A Python [str] is a [string]; iterating over it yields its characters
      ([ascii]); a character used as a dictionary key or appended to a result
      list is the one-character string [String c ""].
    - A Python [int] is a [Z].
    - [Optional[...]] attributes are [option]s.
    - A raised exception is the [Raise] outcome of the [res] monad. The engine
      raises [IndexError] (indexing or popping an empty list) and
      [AttributeError] (an attribute of [None]); [RecursionError] appears only
      in the store model, where a recursion may follow a cycle of references.
    - [self.code_dict] is a [gmap string string]; [Counter], whose iteration
      order feeds the tree construction, is an association list in insertion
      order.

    The file has two models. The first takes nodes as values (a tree is an
    inductive term): it is the one the properties of codes, encoding and
    decoding are proved on. The second, [Heap], takes nodes and lists as
    objects in a store, referred to by references, with the list operations
    updating the store in place: it is the one on which "nothing is mutated"
    is a statement. The two are related by [create_root_of_tree_refines],
    [generate_codes_refines], [decode_loop_refines] and
    [HuffmanMethod_init_refines]. *)

From Stdlib Require Import ZArith String Ascii List Sorted.
From stdpp Require Import gmap strings list sorting.

Set Warnings "-clear-no-such-hyp".

Open Scope string_scope.
Open Scope Z_scope.
Open Scope list_scope.

(** * Definitions *)

(** ** Outcomes of fallible code *)

Inductive PyExc : Type := IndexError | AttributeError | RecursionError.

Inductive res (A : Type) : Type :=
| Ok (a : A)
| Raise (e : PyExc).
Arguments Ok {A} a.
Arguments Raise {A} e.

#[global] Instance res_ret : MRet res := fun A a => Ok a.
#[global] Instance res_bind : MBind res := fun A B k m =>
  match m with
  | Ok a => k a
  | Raise e => Raise e
  end.

Definition raises {A : Type} (m : res A) : Prop := exists e, m = Raise e.

Definition outcome {A : Type} (m : res A) : option A :=
  match m with
  | Ok a => Some a
  | Raise _ => None
  end.

(** ** class Node *)

#[warnings="-register-all"]
Inductive Node : Type :=
| mkNode (char : option string) (frequency : Z) (left right : option Node).

Definition Node_char (n : Node) : option string :=
  match n with mkNode c _ _ _ => c end.
Definition Node_frequency (n : Node) : Z :=
  match n with mkNode _ f _ _ => f end.
Definition Node_left (n : Node) : option Node :=
  match n with mkNode _ _ l _ => l end.
Definition Node_right (n : Node) : option Node :=
  match n with mkNode _ _ _ r => r end.

(** [Node(char, freq)]: the two children default to [None]. *)
Definition leaf_node (c : string) (f : Z) : Node := mkNode (Some c) f None None.

Definition on_child (P : Node -> Prop) (o : option Node) : Prop :=
  match o with
  | Some n => P n
  | None => True
  end.

Section Node_induction.
Variable P : Node -> Prop.
Hypothesis step : forall c f l r, on_child P l -> on_child P r -> P (mkNode c f l r).

Fixpoint Node_ind' (n : Node) : P n :=
  match n with
  | mkNode c f l r =>
      step c f l r
        (match l return on_child P l with Some x => Node_ind' x | None => I end)
        (match r return on_child P r with Some x => Node_ind' x | None => I end)
  end.
End Node_induction.

(** Number of nodes on the longest branch. *)
Fixpoint height (n : Node) : nat :=
  match n with
  | mkNode _ _ l r =>
      S (Nat.max (match l with Some x => height x | None => O end)
                 (match r with Some x => height x | None => O end))
  end.

(** ** list operations used by the tree construction *)

(** [lst.pop(0)]: removes and returns the first element, [IndexError] on an
    empty list. *)
Definition pop0 {A : Type} (l : list A) : res (A * list A) :=
  match l with
  | [] => Raise IndexError
  | x :: l' => Ok (x, l')
  end.

(** [lst[0]]. *)
Definition index0 {A : Type} (l : list A) : res A :=
  match l with
  | [] => Raise IndexError
  | x :: _ => Ok x
  end.

(** [lst.sort(key=...)] with an integer key: Python's sort is stable, so its
    result is the one stable ascending ordering by key; insertion from the
    right computes it. *)
Section sort.
Context {A : Type} (key : A -> Z).

Fixpoint insert_by_key (x : A) (l : list A) : list A :=
  match l with
  | [] => [x]
  | y :: l' =>
      if (key x <=? key y)%Z
      then x :: y :: l'
      else y :: insert_by_key x l'
  end.

Fixpoint sort_by_key (l : list A) : list A :=
  match l with
  | [] => []
  | x :: l' => insert_by_key x (sort_by_key l')
  end.

Definition ascending (l : list A) : Prop :=
  Sorted (fun a b => key a <= key b) l.

(** The elements of one key, in their order in the list. *)
Definition of_key (k : Z) (l : list A) : list A :=
  List.filter (fun a => key a =? k) l.
End sort.

(** ** class HuffmanMethod *)

Record HuffmanMethod : Type := mkHuffmanMethod {
  base_nodes : list Node;
  root : Node;
  code_dict : gmap string string
}.

(** The node made by one iteration of the loop. *)
Definition merged (a b : Node) : Node :=
  mkNode None (Node_frequency a + Node_frequency b) (Some a) (Some b).

(** One iteration of the [while] body of [_create_root_of_tree]. *)
Definition merge_step (copy_nodes : list Node) : res (list Node) :=
  let sorted := sort_by_key Node_frequency copy_nodes in
  '(left_p, l1) ← pop0 sorted;
  '(right_p, l2) ← pop0 l1;
  let new_node :=
    mkNode None (Node_frequency left_p + Node_frequency right_p)
           (Some left_p) (Some right_p) in
  Ok (l2 ++ [new_node]).

(** The [while len(copy_nodes) > 1] loop; every iteration shortens the list by
    one, so [fuel] at least the length of the list is never exhausted
    (lemmas [merge_loop_total] and [merge_loop_fuel]). *)
Fixpoint merge_loop (fuel : nat) (copy_nodes : list Node) : res (list Node) :=
  match fuel with
  | O => Ok copy_nodes
  | S fuel' =>
      if (1 <? length copy_nodes)%nat
      then l ← merge_step copy_nodes; merge_loop fuel' l
      else Ok copy_nodes
  end.

(** [_create_root_of_tree]; in this model lists are values, so the copy is the
    list itself. *)
Definition create_root_of_tree (nodes : list Node) : res Node :=
  let copy_nodes := nodes in
  l ← merge_loop (length copy_nodes) copy_nodes;
  index0 l.

(** [_generate_codes(node, prefix, code_dict)]; the recursive calls receive
    [node.left] and [node.right], and reading [.char] of [None] raises.
    The interpreter's limit on the nesting of calls is not part of this
    function ([Heap.generate_codes] has it): on a tree higher than that limit
    the code raises [RecursionError] where this function returns. What is
    stated about the constructor on arbitrary node lists therefore takes its
    result as given; the trees a processor builds from a text are never that
    high, their height being at most the number of different characters of
    the text. *)
Fixpoint generate_codes (node : Node) (prefix : string)
    (dict : gmap string string) : res (gmap string string) :=
  match node with
  | mkNode (Some c) _ _ _ => Ok (<[c := prefix]> dict)
  | mkNode None _ l r =>
      d1 ← match l with
           | Some ln => generate_codes ln (prefix +:+ "0") dict
           | None => Raise AttributeError
           end;
      match r with
      | Some rn => generate_codes rn (prefix +:+ "1") d1
      | None => Raise AttributeError
      end
  end.

(** [HuffmanMethod.__init__] *)
Definition HuffmanMethod_init (nodes : list Node) : res HuffmanMethod :=
  r ← create_root_of_tree nodes;
  d ← generate_codes r "" ∅;
  Ok (mkHuffmanMethod nodes r d).

(** [encode_text]: the loop over the characters of [text]. *)
Fixpoint encode_loop (dict : gmap string string) (text : string)
    (char_list : list string) : list string :=
  match text with
  | EmptyString => char_list
  | String ch text' =>
      match dict !! (String ch EmptyString) with
      | Some char_code => encode_loop dict text' (char_list ++ [char_code])
      | None => encode_loop dict text' char_list
      end
  end.

Definition encode_text (h : HuffmanMethod) (text : string) : string :=
  String.concat "" (encode_loop (code_dict h) text []).

(** [decode_text]: the loop over the characters of [encoded_text]. *)
Fixpoint decode_loop (rt : Node) (temp_node : Node) (encoded_text : string)
    (result : list string) : res (list string) :=
  match encoded_text with
  | EmptyString => Ok result
  | String bit rest =>
      match (if Ascii.eqb bit "0" then Node_left temp_node
             else Node_right temp_node) with
      | None => Raise AttributeError
      | Some next =>
          match Node_char next with
          | Some c => decode_loop rt rt rest (result ++ [c])
          | None => decode_loop rt next rest result
          end
      end
  end.

Definition decode_text (h : HuffmanMethod) (encoded_text : string) : res string :=
  result ← decode_loop (root h) (root h) encoded_text [];
  Ok (String.concat "" result).

(** ** class HuffmanBasedProcessor *)

(** [Counter(text)]: counts in first-occurrence order. *)
Fixpoint Counter_incr (key : string) (counts : list (string * Z)) : list (string * Z) :=
  match counts with
  | [] => [(key, 1)]
  | (k, v) :: counts' =>
      if String.eqb k key then (k, v + 1) :: counts'
      else (k, v) :: Counter_incr key counts'
  end.

Fixpoint Counter_loop (text : string) (counts : list (string * Z)) : list (string * Z) :=
  match text with
  | EmptyString => counts
  | String ch text' => Counter_loop text' (Counter_incr (String ch EmptyString) counts)
  end.

Definition Counter (text : string) : list (string * Z) := Counter_loop text [].

Record HuffmanBasedProcessor : Type := mkHuffmanBasedProcessor {
  base_text : string;
  nodes : list Node;
  huffman : HuffmanMethod
}.

(** [_count_chars_freq] *)
Definition count_chars_freq (text : string) : list (string * Z) := Counter text.

(** [_create_huffman_tree]: one leaf node for each entry of the counter, in
    its order. *)
Definition create_huffman_tree (text : string) : list Node :=
  map (fun '(c, freq) => leaf_node c freq) (count_chars_freq text).

(** [HuffmanBasedProcessor.__init__] *)
Definition HuffmanBasedProcessor_init (text : string) : res HuffmanBasedProcessor :=
  let ns := create_huffman_tree text in
  h ← HuffmanMethod_init ns;
  Ok (mkHuffmanBasedProcessor text ns h).

(** [HuffmanBasedProcessor.encode_text]: without a text, the text given to
    the constructor. *)
Definition Processor_encode_text (p : HuffmanBasedProcessor) (text : option string) : string :=
  let text := match text with None => base_text p | Some t => t end in
  encode_text (huffman p) text.

(** [HuffmanBasedProcessor.decode_text] *)
Definition Processor_decode_text (p : HuffmanBasedProcessor) (text : string) : res string :=
  decode_text (huffman p) text.

(** ** Notions used in the statements *)

(** The characters of a text, each as the one-character string the loops of
    the engine see. *)
Fixpoint chars (text : string) : list string :=
  match text with
  | EmptyString => []
  | String ch text' => String ch EmptyString :: chars text'
  end.

(** The text made of [n] times the character [ch]. *)
Fixpoint repeated (ch : ascii) (n : nat) : string :=
  match n with
  | O => EmptyString
  | S n' => String ch (repeated ch n')
  end.

(** Two different characters occur in the text. *)
Definition two_symbols (text : string) : Prop :=
  exists a b, a <> b /\ a ∈ chars text /\ b ∈ chars text.

(** Nodes without a symbol have both children, all the way down: the shape on
    which [_generate_codes] never meets [None]. *)
Inductive proper : Node -> Prop :=
| proper_leaf c f l r : proper (mkNode (Some c) f l r)
| proper_internal f l r :
    proper l -> proper r -> proper (mkNode None f (Some l) (Some r)).

(** [leaf_path t p c]: from [t], the bits [p] ("0" left, "1" right) lead
    through symbol-less nodes to a node that carries the symbol [c]. *)
Inductive leaf_path : Node -> string -> string -> Prop :=
| leaf_path_here c f l r : leaf_path (mkNode (Some c) f l r) "" c
| leaf_path_left f l r p c :
    leaf_path l p c -> leaf_path (mkNode None f (Some l) r) (String "0" p) c
| leaf_path_right f l r p c :
    leaf_path r p c -> leaf_path (mkNode None f l (Some r)) (String "1" p) c.

(** Some node of the list has a path to the symbol. *)
Definition reaches (c : string) (l : list Node) : Prop :=
  exists t p, t ∈ l /\ leaf_path t p c.

(** The codes appended by the loop of [encode_text], in order. *)
Fixpoint codes (dict : gmap string string) (text : string) : list string :=
  match text with
  | EmptyString => []
  | String ch text' =>
      match dict !! (String ch EmptyString) with
      | Some char_code => char_code :: codes dict text'
      | None => codes dict text'
      end
  end.

(** The text without the characters that have no entry in the dictionary. *)
Fixpoint covered_part (dict : gmap string string) (text : string) : string :=
  match text with
  | EmptyString => EmptyString
  | String ch text' =>
      match dict !! (String ch EmptyString) with
      | Some _ => String ch (covered_part dict text')
      | None => covered_part dict text'
      end
  end.

(** Every character of the text has an entry. *)
Definition covers (dict : gmap string string) (text : string) : Prop :=
  forall k, k ∈ chars text -> is_Some (dict !! k).

(** Any character other than "0" sends the walk to the right, as "1" does. *)
Fixpoint as_bits (encoded_text : string) : string :=
  match encoded_text with
  | EmptyString => EmptyString
  | String bit rest =>
      String (if Ascii.eqb bit "0" then "0" else "1")%char (as_bits rest)
  end.

Fixpoint is_binary (encoded_text : string) : bool :=
  match encoded_text with
  | EmptyString => true
  | String bit rest => (Ascii.eqb bit "0" || Ascii.eqb bit "1") && is_binary rest
  end.

(** ** The operations as the specification words them *)

(** The encoder of the specification: the concatenation of the codes, or the
    failure [UnknownSymbol] when a symbol has no entry. *)
Inductive encode_outcome : Type :=
| Encoded (bits : string)
| UnknownSymbol.

Fixpoint encode_spec (dict : gmap string string) (symbols : string) : encode_outcome :=
  match symbols with
  | EmptyString => Encoded ""
  | String ch symbols' =>
      match dict !! (String ch EmptyString), encode_spec dict symbols' with
      | Some code, Encoded bits => Encoded (code +:+ bits)
      | _, _ => UnknownSymbol
      end
  end.

(** The decoder of the specification as a state machine: the state is the
    position in the tree and the symbols emitted so far. *)
Record decoder_state : Type := mkDecoderState {
  position : Node;
  emitted : list string
}.

Definition decoder_step (rt : Node) (st : decoder_state) (bit : ascii)
    : option decoder_state :=
  match (if Ascii.eqb bit "0" then Node_left (position st)
         else if Ascii.eqb bit "1" then Node_right (position st)
         else None) with
  | None => None
  | Some child =>
      match Node_char child with
      | Some symbol => Some (mkDecoderState rt (emitted st ++ [symbol]))
      | None => Some (mkDecoderState child (emitted st))
      end
  end.

Fixpoint decoder_run (rt : Node) (st : decoder_state) (bits : string)
    : option decoder_state :=
  match bits with
  | EmptyString => Some st
  | String bit rest =>
      match decoder_step rt st bit with
      | Some st' => decoder_run rt st' rest
      | None => None
      end
  end.

Definition decode_spec (rt : Node) (bits : string) : option string :=
  match decoder_run rt (mkDecoderState rt []) bits with
  | Some st => Some (String.concat "" (emitted st))
  | None => None
  end.

(** ** Worked inputs *)

Definition ex_nodes : list Node :=
  [leaf_node "a" 5; leaf_node "b" 9; leaf_node "c" 12;
   leaf_node "d" 13; leaf_node "e" 16; leaf_node "f" 45].

Definition two_nodes : list Node := [leaf_node "a" 1; leaf_node "b" 1].

Definition three_nodes : list Node :=
  [leaf_node "a" 1; leaf_node "b" 1; leaf_node "c" 2].

Definition code_lengths (h : HuffmanMethod) (keys : list string) : list (option nat) :=
  map (fun k => String.length <$> (code_dict h !! k)) keys.

Definition code_lengths_of (nodes : list Node) (keys : list string)
    : res (list (option nat)) :=
  h ← HuffmanMethod_init nodes;
  Ok (code_lengths h keys).

(** ** The store model *)

(** Nodes and lists as Python has them: objects in a store, named by
    references. A [Node] object holds references to its children; a list
    object holds references to nodes and is updated in place by [sort],
    [pop] and [append]. The store has no operation that writes an attribute
    of an existing node, because the engine has no such assignment outside
    [Node.__init__]. A reference that denotes no object of the expected
    class behaves as [None] does: reading through it raises
    [AttributeError]. *)
Module Heap.

Definition ref : Type := nat.

Record NodeObj : Type := mkNodeObj {
  obj_char : option string;
  obj_frequency : Z;
  obj_left : option ref;
  obj_right : option ref
}.

Record store : Type := mkStore {
  node_heap : list NodeObj;
  list_heap : list (list ref)
}.

(** Computations on the store that may raise. *)
Record M (A : Type) : Type := mkM { run : store -> res A * store }.
Arguments mkM {A} _.
Arguments run {A} _ _.

#[global] Instance M_ret : MRet M := fun A a => mkM (fun s => (Ok a, s)).
#[global] Instance M_bind : MBind M := fun A B k m =>
  mkM (fun s =>
         match run m s with
         | (Ok a, s') => run (k a) s'
         | (Raise e, s') => (Raise e, s')
         end).

Definition raise {A : Type} (e : PyExc) : M A := mkM (fun s => (Raise e, s)).

(** Reading the attributes of a node. *)
Definition get_node (r : ref) : M NodeObj :=
  mkM (fun s =>
         match node_heap s !! r with
         | Some o => (Ok o, s)
         | None => (Raise AttributeError, s)
         end).

Definition get_frequency (r : ref) : M Z :=
  o ← get_node r; mret (obj_frequency o).

(** [Node(char, frequency, left, right)]: a new object. *)
Definition new_Node (c : option string) (f : Z) (l r : option ref) : M ref :=
  mkM (fun s =>
         (Ok (length (node_heap s)),
          mkStore (node_heap s ++ [mkNodeObj c f l r]) (list_heap s))).

Definition get_list (l : ref) : M (list ref) :=
  mkM (fun s =>
         match list_heap s !! l with
         | Some xs => (Ok xs, s)
         | None => (Raise AttributeError, s)
         end).

(** The store with the elements of the list [l] replaced. *)
Definition with_list (l : ref) (xs : list ref) (s : store) : store :=
  mkStore (node_heap s) (<[l := xs]> (list_heap s)).

Definition set_list (l : ref) (xs : list ref) : M unit :=
  mkM (fun s => (Ok tt, with_list l xs s)).

Definition new_list (xs : list ref) : M ref :=
  mkM (fun s =>
         (Ok (length (list_heap s)),
          mkStore (node_heap s) (list_heap s ++ [xs]))).

(** [lst.copy()] *)
Definition list_copy (l : ref) : M ref :=
  xs ← get_list l; new_list xs.

(** [len(lst)] *)
Definition list_len (l : ref) : M nat :=
  xs ← get_list l; mret (length xs).

(** [lst.pop(0)] *)
Definition list_pop0 (l : ref) : M ref :=
  xs ← get_list l;
  match xs with
  | [] => raise IndexError
  | x :: xs' => set_list l xs';; mret x
  end.

(** [lst.append(x)] *)
Definition list_append (l : ref) (x : ref) : M unit :=
  xs ← get_list l; set_list l (xs ++ [x]).

(** [lst[0]] *)
Definition list_index0 (l : ref) : M ref :=
  xs ← get_list l;
  match xs with
  | [] => raise IndexError
  | x :: _ => mret x
  end.

(** The keys [node.frequency] of the elements, computed before sorting. *)
Fixpoint frequencies (xs : list ref) : M (list (Z * ref)) :=
  match xs with
  | [] => mret []
  | x :: xs' =>
      f ← get_frequency x;
      ks ← frequencies xs';
      mret ((f, x) :: ks)
  end.

(** [lst.sort(key=lambda node: node.frequency)], in place. *)
Definition list_sort (l : ref) : M unit :=
  xs ← get_list l;
  ks ← frequencies xs;
  set_list l (map snd (sort_by_key fst ks)).

Record HuffmanMethod : Type := mkHuffmanMethod {
  base_nodes : ref;
  root : ref;
  code_dict : gmap string string
}.

Fixpoint merge_loop (fuel : nat) (copy_nodes : ref) : M unit :=
  match fuel with
  | O => mret tt
  | S fuel' =>
      n ← list_len copy_nodes;
      if (1 <? n)%nat then
        list_sort copy_nodes;;
        left_p ← list_pop0 copy_nodes;
        right_p ← list_pop0 copy_nodes;
        fl ← get_frequency left_p;
        fr ← get_frequency right_p;
        new_node ← new_Node None (fl + fr) (Some left_p) (Some right_p);
        list_append copy_nodes new_node;;
        merge_loop fuel' copy_nodes
      else mret tt
  end.

Definition create_root_of_tree (base : ref) : M ref :=
  copy_nodes ← list_copy base;
  n ← list_len copy_nodes;
  merge_loop n copy_nodes;;
  list_index0 copy_nodes.

(** [_generate_codes]; [depth] bounds the nesting of calls, as the
    interpreter does. *)
Fixpoint generate_codes (depth : nat) (node : option ref) (prefix : string)
    (dict : gmap string string) : M (gmap string string) :=
  match depth with
  | O => raise RecursionError
  | S depth' =>
      match node with
      | None => raise AttributeError
      | Some r =>
          o ← get_node r;
          match obj_char o with
          | Some c => mret (<[c := prefix]> dict)
          | None =>
              d1 ← generate_codes depth' (obj_left o) (prefix +:+ "0") dict;
              generate_codes depth' (obj_right o) (prefix +:+ "1") d1
          end
      end
  end.

Definition HuffmanMethod_init (depth : nat) (nodes : ref) : M HuffmanMethod :=
  r ← create_root_of_tree nodes;
  d ← generate_codes depth (Some r) "" ∅;
  mret (mkHuffmanMethod nodes r d).

Definition encode_text (h : HuffmanMethod) (text : string) : M string :=
  mret (String.concat "" (encode_loop (code_dict h) text [])).

Fixpoint decode_loop (rt : ref) (temp_node : ref) (encoded_text : string)
    (result : list string) : M (list string) :=
  match encoded_text with
  | EmptyString => mret result
  | String bit rest =>
      o ← get_node temp_node;
      match (if Ascii.eqb bit "0" then obj_left o else obj_right o) with
      | None => raise AttributeError
      | Some next =>
          o' ← get_node next;
          match obj_char o' with
          | Some c => decode_loop rt rt rest (result ++ [c])
          | None => decode_loop rt next rest result
          end
      end
  end.

Definition decode_text (h : HuffmanMethod) (encoded_text : string) : M string :=
  result ← decode_loop (root h) (root h) encoded_text [];
  mret (String.concat "" result).

(** Every node object of [s] is the same object in [s']. *)
Definition nodes_kept (s s' : store) : Prop :=
  forall r o, node_heap s !! r = Some o -> node_heap s' !! r = Some o.

(** Every list object of [s] has the same elements in [s']. *)
Definition lists_kept (s s' : store) : Prop :=
  forall l xs, list_heap s !! l = Some xs -> list_heap s' !! l = Some xs.

(** What the loop on the list [c] may change: it adds nodes and updates
    [c]. *)
Definition loop_step (c : ref) (s s' : store) : Prop :=
  node_heap s `prefix_of` node_heap s' /\
  length (list_heap s') = length (list_heap s) /\
  forall l, l <> c -> list_heap s' !! l = list_heap s !! l.

(** A computation whose final store is always related to its initial one. *)
Definition preserves (R : store -> store -> Prop) {A : Type} (m : M A) : Prop :=
  forall s, R s (run m s).2.

(** The tree a reference stands for in a heap of nodes. *)
#[warnings="-register-all"]
Inductive repr (heap : list NodeObj) : ref -> Node -> Prop :=
| repr_node r c f lo ro l r' :
    heap !! r = Some (mkNodeObj c f lo ro) ->
    option_Forall2 (repr heap) lo l ->
    option_Forall2 (repr heap) ro r' ->
    repr heap r (mkNode c f l r').

(** A store with the leaves "a" and "b" and the list of the two. *)
Definition two_leaves : store :=
  mkStore [mkNodeObj (Some "a") 1 None None; mkNodeObj (Some "b") 1 None None]
          [[0%nat; 1%nat]].

End Heap.

(** ** Measures of trees *)

(** The nodes that carry a symbol and are reached through nodes that carry
    none, from left to right, each as its symbol and frequency. *)
Fixpoint leaves (n : Node) : list (string * Z) :=
  match n with
  | mkNode (Some c) f _ _ => [(c, f)]
  | mkNode None _ l r =>
      (match l with Some x => leaves x | None => [] end) ++
      (match r with Some x => leaves x | None => [] end)
  end.

Definition total (ws : list Z) : Z := foldr Z.add 0 ws.

(** Every node without a symbol has two children and, as its frequency, the
    sum of theirs. *)
Inductive consistent : Node -> Prop :=
| consistent_leaf c f l r : consistent (mkNode (Some c) f l r)
| consistent_internal l r :
    consistent l -> consistent r ->
    consistent (mkNode None (Node_frequency l + Node_frequency r) (Some l) (Some r)).

(** A node as [Node(char, freq)] makes it. *)
Definition is_leaf_node (n : Node) : Prop := exists c f, n = leaf_node c f.

(** The symbol and frequency of a node of the input list. *)
Definition entry_of (n : Node) : option (string * Z) :=
  match Node_char n with
  | Some c => Some (c, Node_frequency n)
  | None => None
  end.

(** Number of occurrences of a character in a text. *)
Fixpoint occurrences (k : string) (text : string) : Z :=
  match text with
  | EmptyString => 0
  | String ch text' =>
      (if String.eqb (String ch EmptyString) k then 1 else 0) + occurrences k text'
  end.

(** The sum of the counts recorded for a key. *)
Definition counted (k : string) (counts : list (string * Z)) : Z :=
  total (List.filter (fun kv => String.eqb kv.1 k) counts).*2.

(** The leaves as [leaves] lists them, each as its frequency and its depth
    below the node, the node itself being at depth [d]. *)
Fixpoint leaf_depths (d : nat) (n : Node) : list (Z * nat) :=
  match n with
  | mkNode (Some _) f _ _ => [(f, d)]
  | mkNode None _ l r =>
      (match l with Some x => leaf_depths (S d) x | None => [] end) ++
      (match r with Some x => leaf_depths (S d) x | None => [] end)
  end.

(** Sum of weight times depth. *)
Definition wsum (A : list (Z * nat)) : Z :=
  total (map (fun wd => wd.1 * Z.of_nat wd.2) A).

(** The weighted path length of a tree: the sum, over its leaves, of
    frequency times depth. *)
Definition cost (n : Node) : Z := wsum (leaf_depths 0 n).

(** Number of bits of the code of a symbol, 0 without a code. *)
Definition code_length (dict : gmap string string) (c : string) : Z :=
  match dict !! c with
  | Some code => Z.of_nat (String.length code)
  | None => 0
  end.

(** Sum of frequency times code length. *)
Definition weighted_length (dict : gmap string string) (l : list (string * Z)) : Z :=
  total (map (fun cf => cf.2 * code_length dict cf.1) l).

(** The sum of the merged weights when the two smallest weights are merged
    again and again, as the loop of [_create_root_of_tree] does with its
    nodes. *)
Fixpoint greedy_cost (fuel : nat) (ws : list Z) : Z :=
  match fuel with
  | O => 0
  | S fuel' =>
      if (1 <? length ws)%nat then
        match sort_by_key id ws with
        | a :: b :: rest => a + b + greedy_cost fuel' (rest ++ [a + b])
        | _ => 0
        end
      else 0
  end.

(** The lists of leaf depths of trees whose nodes have two children or none:
    the single depth 0, and what comes from replacing a leaf by a node with
    two leaves. *)
Inductive realizable : list nat -> Prop :=
| realizable_one : realizable [0%nat]
| realizable_split d D E :
    realizable (d :: D) -> E ≡ₚ S d :: S d :: D -> realizable E.

(** * Properties *)

(** ** Strings *)

Lemma append_String (a : ascii) (s t : string) :
  String a s +:+ t = String a (s +:+ t).
Proof. reflexivity. Qed.

Lemma append_empty_l (s : string) : "" +:+ s = s.
Proof. reflexivity. Qed.

Lemma append_empty_r (s : string) : s +:+ "" = s.
Proof.
  induction s as [|a s IH]; [reflexivity|].
  now rewrite append_String, IH.
Qed.

Lemma append_assoc' (s1 s2 s3 : string) : (s1 +:+ s2) +:+ s3 = s1 +:+ (s2 +:+ s3).
Proof.
  induction s1 as [|a s1 IH]; [reflexivity|].
  now rewrite !append_String, IH.
Qed.

Lemma append_eq_empty (s1 s2 : string) : s1 +:+ s2 = "" -> s1 = "" /\ s2 = "".
Proof. destruct s1; [auto | rewrite append_String; discriminate]. Qed.

Lemma append_cancel_l (s t1 t2 : string) : s +:+ t1 = s +:+ t2 -> t1 = t2.
Proof.
  induction s as [|a s IH]; intros H; [assumption|].
  rewrite !append_String in H. injection H; auto.
Qed.

Lemma concat_empty_cons (x : string) (l : list string) :
  String.concat "" (x :: l) = x +:+ String.concat "" l.
Proof. destruct l; [symmetry; apply append_empty_r | reflexivity]. Qed.

Lemma concat_empty_app (l1 l2 : list string) :
  String.concat "" (l1 ++ l2) = String.concat "" l1 +:+ String.concat "" l2.
Proof.
  induction l1 as [|x l1 IH]; [reflexivity|].
  change ((x :: l1) ++ l2) with (x :: (l1 ++ l2)).
  now rewrite !concat_empty_cons, IH, append_assoc'.
Qed.

Lemma prefix_append (s t : string) : String.prefix s (s +:+ t) = true.
Proof.
  induction s as [|a s IH]; [now destruct t|].
  rewrite append_String. simpl.
  destruct (ascii_dec a a); [assumption | contradiction].
Qed.

Lemma prefix_split (s1 s2 : string) :
  String.prefix s1 s2 = true -> exists q, s2 = s1 +:+ q.
Proof.
  revert s2; induction s1 as [|a s1 IH]; intros s2 H.
  - exists s2; reflexivity.
  - destruct s2 as [|b s2]; simpl in H; [discriminate|].
    destruct (ascii_dec a b) as [->|]; [|discriminate].
    destruct (IH _ H) as [q ->]. exists q; now rewrite append_String.
Qed.

Lemma concat_chars (text : string) : String.concat "" (chars text) = text.
Proof.
  induction text as [|a text IH]; [reflexivity|].
  simpl chars. now rewrite concat_empty_cons, IH.
Qed.

(** ** The stable sort *)

Section sort_lemmas.
Context {A : Type} (key : A -> Z).

Lemma insert_by_key_perm x l : insert_by_key key x l ≡ₚ x :: l.
Proof.
  induction l as [|y l IH]; simpl; [reflexivity|].
  destruct (key x <=? key y); [reflexivity|].
  rewrite IH. apply Permutation_swap.
Qed.

Lemma sort_by_key_perm l : sort_by_key key l ≡ₚ l.
Proof.
  induction l as [|x l IH]; simpl; [reflexivity|].
  now rewrite insert_by_key_perm, IH.
Qed.

Lemma sort_by_key_length l : length (sort_by_key key l) = length l.
Proof. apply Permutation_length, sort_by_key_perm. Qed.

Lemma insert_by_key_ascending x l :
  ascending key l -> ascending key (insert_by_key key x l).
Proof.
  unfold ascending. induction l as [|y l IH]; simpl; intros Hs.
  - repeat constructor.
  - destruct (Z.leb_spec (key x) (key y)) as [Hle|Hgt].
    + constructor; [assumption | constructor; assumption].
    + inversion Hs as [|? ? Hs' Hhd]; subst. constructor; [auto|].
      destruct l as [|z l]; simpl.
      * constructor; lia.
      * destruct (Z.leb_spec (key x) (key z)).
        -- constructor; lia.
        -- inversion Hhd; subst. constructor; assumption.
Qed.

Lemma sort_by_key_ascending l : ascending key (sort_by_key key l).
Proof.
  induction l as [|x l IH]; simpl; [constructor|].
  now apply insert_by_key_ascending.
Qed.

(** Stability: the elements of one key keep their relative order. *)
Lemma insert_by_key_stable k x l :
  ascending key l ->
  of_key key k (insert_by_key key x l) = of_key key k (x :: l).
Proof.
  unfold ascending, of_key.
  induction l as [|y l IH]; intros Hs; [reflexivity|].
  simpl insert_by_key.
  destruct (Z.leb_spec (key x) (key y)) as [Hle|Hgt]; [reflexivity|].
  inversion Hs as [|? ? Hs' Hhd]; subst.
  cbn [List.filter]. rewrite (IH Hs'). cbn [List.filter].
  destruct (key x =? k) eqn:Ex; destruct (key y =? k) eqn:Ey;
    try reflexivity.
  apply Z.eqb_eq in Ex, Ey. lia.
Qed.

Lemma sort_by_key_stable k l :
  of_key key k (sort_by_key key l) = of_key key k l.
Proof.
  induction l as [|x l IH]; [reflexivity|].
  simpl sort_by_key.
  rewrite insert_by_key_stable by apply sort_by_key_ascending.
  unfold of_key in *. simpl. now rewrite IH.
Qed.
End sort_lemmas.

(** ** Tree construction *)

Lemma merge_step_short l : (length l <= 1)%nat -> merge_step l = Raise IndexError.
Proof.
  destruct l as [|x [|y l]]; simpl; intros H; [reflexivity | reflexivity | lia].
Qed.

Lemma merge_step_ok l :
  (1 < length l)%nat ->
  exists a b rest,
    sort_by_key Node_frequency l = a :: b :: rest /\
    merge_step l = Ok (rest ++ [merged a b]).
Proof.
  intros Hlen. unfold merge_step.
  pose proof (sort_by_key_length Node_frequency l) as Hs.
  destruct (sort_by_key Node_frequency l) as [|a [|b rest]]; simpl in Hs; try lia.
  exists a, b, rest. split; reflexivity.
Qed.

Lemma merge_step_length l l' :
  merge_step l = Ok l' -> S (length l') = length l.
Proof.
  intros H. destruct (Nat.le_gt_cases (length l) 1) as [Hle|Hgt].
  - rewrite merge_step_short in H by assumption. discriminate.
  - destruct (merge_step_ok l Hgt) as (a & b & rest & Hs & Hm).
    rewrite Hm in H. injection H as <-.
    rewrite <- (sort_by_key_length Node_frequency l), Hs, length_app. simpl. lia.
Qed.

(** The loop terminates: fuel equal to the length of the list is enough, it
    leaves at most one node, and it leaves one when it started with some. *)
Lemma merge_loop_total fuel l :
  (length l <= fuel)%nat ->
  exists l', merge_loop fuel l = Ok l' /\
             (length l' <= 1)%nat /\ (l <> [] -> l' <> []).
Proof.
  revert l. induction fuel as [|fuel IH]; intros l Hlen.
  - exists l. destruct l; simpl in *; [auto with lia | lia].
  - simpl. destruct (Nat.ltb_spec 1 (length l)) as [Hgt|Hle].
    + destruct (merge_step_ok l Hgt) as (a & b & rest & Hs & Hm).
      rewrite Hm. simpl.
      pose proof (merge_step_length _ _ Hm) as Hl.
      destruct (IH (rest ++ [merged a b])) as (l' & Hl' & Hlen' & Hne); [lia|].
      exists l'. split; [assumption|]. split; [assumption|].
      intros _. apply Hne. now destruct rest.
    + exists l. auto.
Qed.

(** More fuel than the length changes nothing. *)
Lemma merge_loop_fuel fuel l :
  (length l <= fuel)%nat -> merge_loop fuel l = merge_loop (length l) l.
Proof.
  revert l. induction fuel as [|fuel IH]; intros l Hlen.
  - destruct l; [reflexivity | simpl in Hlen; lia].
  - destruct l as [|x l]; [reflexivity|].
    change (length (x :: l)) with (S (length l)).
    simpl merge_loop.
    destruct (Nat.ltb_spec 1 (S (length l))) as [Hgt|Hle]; [|reflexivity].
    destruct (merge_step (x :: l)) as [l1|e] eqn:Hm; [|reflexivity].
    simpl. apply merge_step_length in Hm. simpl in Hm.
    rewrite IH by (simpl in Hlen; lia).
    replace (length l) with (length l1) by lia. reflexivity.
Qed.

Section merge_invariant.
Variable Inv : list Node -> Prop.
Hypothesis Inv_perm : forall l l', l ≡ₚ l' -> Inv l -> Inv l'.
Hypothesis Inv_merge :
  forall a b rest, Inv (a :: b :: rest) -> Inv (rest ++ [merged a b]).

Lemma merge_step_invariant l l' : merge_step l = Ok l' -> Inv l -> Inv l'.
Proof.
  intros H HI. destruct (Nat.le_gt_cases (length l) 1) as [Hle|Hgt].
  - rewrite merge_step_short in H by assumption. discriminate.
  - destruct (merge_step_ok l Hgt) as (a & b & rest & Hs & Hm).
    rewrite Hm in H. injection H as <-.
    apply Inv_merge. rewrite <- Hs.
    eapply Inv_perm; [|exact HI]. symmetry. apply sort_by_key_perm.
Qed.

Lemma merge_loop_invariant fuel l l' :
  merge_loop fuel l = Ok l' -> Inv l -> Inv l'.
Proof.
  revert l. induction fuel as [|fuel IH]; intros l H HI; simpl in H.
  - now injection H as <-.
  - destruct (1 <? length l)%nat; [|now injection H as <-].
    destruct (merge_step l) as [l1|e] eqn:Hm; [|discriminate].
    simpl in H. eapply IH; [exact H|]. eapply merge_step_invariant; eauto.
Qed.
End merge_invariant.

Lemma create_root_of_tree_empty : create_root_of_tree [] = Raise IndexError.
Proof. reflexivity. Qed.

Lemma create_root_of_tree_single n : create_root_of_tree [n] = Ok n.
Proof. reflexivity. Qed.

Lemma create_root_of_tree_total nodes :
  nodes <> [] ->
  exists r, merge_loop (length nodes) nodes = Ok [r] /\
            create_root_of_tree nodes = Ok r.
Proof.
  intros Hne. unfold create_root_of_tree.
  destruct (merge_loop_total (length nodes) nodes) as (l' & Hl & Hlen & Hne');
    [lia|].
  specialize (Hne' Hne).
  destruct l' as [|r [|? ?]]; [contradiction | | simpl in Hlen; lia].
  exists r. rewrite Hl. split; reflexivity.
Qed.

(** With two nodes or more the loop body runs, and the root is the node made by
    its last iteration. *)
Lemma merge_loop_root_internal fuel l r :
  merge_loop fuel l = Ok [r] -> (1 < length l)%nat -> Node_char r = None.
Proof.
  revert l. induction fuel as [|fuel IH]; intros l H Hlen; simpl in H.
  - injection H as ->. simpl in Hlen. lia.
  - destruct (Nat.ltb_spec 1 (length l)) as [_|Hle]; [|lia].
    destruct (merge_step_ok l Hlen) as (a & b & rest & Hs & Hm).
    rewrite Hm in H. simpl in H.
    destruct rest as [|c rest].
    + simpl in H. destruct fuel; simpl in H; now injection H as <-.
    + eapply IH; [exact H|]. simpl. rewrite length_app. simpl. lia.
Qed.

(** ** Shapes of trees *)

Lemma leaf_path_symbol t c p :
  leaf_path t p c -> forall s, Node_char t = Some s -> p = "" /\ s = c.
Proof. intros H s Hs. destruct H; simpl in Hs; [injection Hs; auto | discriminate ..]. Qed.

Lemma leaf_path_extend t p c :
  leaf_path t p c -> forall q c', leaf_path t (p +:+ q) c' -> q = "" /\ c' = c.
Proof.
  induction 1 as [c f l r|f l r p c H IH|f l r p c H IH]; intros q c' H'.
  - rewrite append_empty_l in H'.
    destruct (leaf_path_symbol _ _ _ H' c eq_refl) as [-> ->]. auto.
  - rewrite append_String in H'. inversion H'; subst. eauto.
  - rewrite append_String in H'. inversion H'; subst. eauto.
Qed.

(** ** Code generation *)

Lemma generate_codes_proper t :
  proper t -> forall pre d, exists d', generate_codes t pre d = Ok d'.
Proof.
  induction 1 as [c f l r|f l r Hl IHl Hr IHr]; intros pre d; simpl.
  - eauto.
  - destruct (IHl (pre +:+ "0") d) as [d1 ->]. simpl. apply IHr.
Qed.

Lemma append_bit pre b p : (pre +:+ String b "") +:+ p = pre +:+ String b p.
Proof. now rewrite append_assoc'. Qed.

(** Every entry written by the traversal is the path to a node carrying the
    key; the other entries are those of the dictionary it started from. *)
Lemma generate_codes_entry t :
  forall pre d d', generate_codes t pre d = Ok d' ->
  forall k v, d' !! k = Some v ->
    d !! k = Some v \/ exists p, v = pre +:+ p /\ leaf_path t p k.
Proof.
  induction t as [c f l r IHl IHr] using Node_ind'.
  intros pre d d' H k v Hk. destruct c as [s|]; simpl in H.
  - injection H as <-. destruct (decide (s = k)) as [->|Hne].
    + rewrite lookup_insert_eq in Hk. injection Hk as <-.
      right. exists "". rewrite append_empty_r. split; [reflexivity | constructor].
    + rewrite lookup_insert_ne in Hk by assumption. now left.
  - destruct l as [ln|]; [|discriminate].
    destruct (generate_codes ln (pre +:+ "0") d) as [d1|e] eqn:H1; [|discriminate].
    simpl in H. destruct r as [rn|]; [|discriminate].
    simpl in IHl, IHr.
    destruct (IHr _ _ _ H _ _ Hk) as [Hk1|(p & -> & Hp)].
    + destruct (IHl _ _ _ H1 _ _ Hk1) as [Hk0|(p & -> & Hp)]; [now left|].
      right. exists (String "0" p). rewrite append_bit. split; [reflexivity|].
      now constructor.
    + right. exists (String "1" p). rewrite append_bit. split; [reflexivity|].
      now constructor.
Qed.

Lemma generate_codes_keeps t :
  forall pre d d', generate_codes t pre d = Ok d' ->
  forall k, is_Some (d !! k) -> is_Some (d' !! k).
Proof.
  induction t as [c f l r IHl IHr] using Node_ind'.
  intros pre d d' H k Hk. destruct c as [s|]; simpl in H.
  - injection H as <-. rewrite lookup_insert. case_decide; eauto.
  - destruct l as [ln|]; [|discriminate].
    destruct (generate_codes ln (pre +:+ "0") d) as [d1|e] eqn:H1; [|discriminate].
    simpl in H. destruct r as [rn|]; [|discriminate].
    simpl in IHl, IHr. eauto.
Qed.

Lemma generate_codes_covers t :
  forall pre d d', generate_codes t pre d = Ok d' ->
  forall p k, leaf_path t p k -> is_Some (d' !! k).
Proof.
  induction t as [c f l r IHl IHr] using Node_ind'.
  intros pre d d' H p k Hp. destruct c as [s|]; simpl in H.
  - injection H as <-. inversion Hp; subst. rewrite lookup_insert_eq. eauto.
  - destruct l as [ln|]; [|discriminate].
    destruct (generate_codes ln (pre +:+ "0") d) as [d1|e] eqn:H1; [|discriminate].
    simpl in H. destruct r as [rn|]; [|discriminate].
    simpl in IHl, IHr. inversion Hp; subst.
    + eapply generate_codes_keeps; [exact H|]. eauto.
    + eauto.
Qed.

(** ** Encoding *)

Lemma encode_loop_codes dict text acc :
  encode_loop dict text acc = acc ++ codes dict text.
Proof.
  revert acc. induction text as [|ch text IH]; intros acc; simpl.
  - now rewrite app_nil_r.
  - destruct (dict !! String ch ""); [|apply IH].
    rewrite IH, <- app_assoc. reflexivity.
Qed.

Lemma codes_covered_part dict text :
  codes dict (covered_part dict text) = codes dict text.
Proof.
  induction text as [|ch text IH]; [reflexivity|]. simpl.
  destruct (dict !! String ch "") eqn:E; [|assumption].
  simpl. now rewrite E, IH.
Qed.

Lemma covered_part_covers dict text : covers dict text -> covered_part dict text = text.
Proof.
  unfold covers. induction text as [|ch text IH]; intros H; [reflexivity|].
  simpl. destruct (H (String ch "")) as [v ->]; [simpl; left|].
  rewrite IH; [reflexivity|]. intros k Hk. apply H. simpl. now right.
Qed.

(** ** Decoding *)

(** Walking down the path of a symbol emits the symbol and returns to the
    root. *)
Lemma decode_loop_path rt n p c :
  leaf_path n p c -> Node_char n = None ->
  forall rest result,
    decode_loop rt n (p +:+ rest) result = decode_loop rt rt rest (result ++ [c]).
Proof.
  induction 1 as [c f l r|f l r p c H IH|f l r p c H IH];
    intros Hn rest result; [discriminate| |].
  - rewrite append_String. simpl.
    destruct (Node_char l) as [s|] eqn:Hl.
    + destruct (leaf_path_symbol _ _ _ H s Hl) as [-> ->]. reflexivity.
    + now apply IH.
  - rewrite append_String. simpl.
    destruct (Node_char r) as [s|] eqn:Hr.
    + destruct (leaf_path_symbol _ _ _ H s Hr) as [-> ->]. reflexivity.
    + now apply IH.
Qed.

(** Walking down a proper part of the path of a symbol emits nothing and
    raises nothing. *)
Lemma decode_loop_partial rt n p q c :
  leaf_path n (p +:+ q) c -> q <> "" -> Node_char n = None ->
  forall result, decode_loop rt n p result = Ok result.
Proof.
  revert n. induction p as [|b p IH]; intros n H Hq Hn result; [reflexivity|].
  rewrite append_String in H. inversion H; subst; simpl.
  - destruct (Node_char l) as [s|] eqn:Hl.
    + match goal with Hp : leaf_path l _ _ |- _ =>
        destruct (leaf_path_symbol _ _ _ Hp s Hl) as [Hpq _] end.
      now apply append_eq_empty in Hpq.
    + eapply IH; eauto.
  - destruct (Node_char r) as [s|] eqn:Hr.
    + match goal with Hp : leaf_path r _ _ |- _ =>
        destruct (leaf_path_symbol _ _ _ Hp s Hr) as [Hpq _] end.
      now apply append_eq_empty in Hpq.
    + eapply IH; eauto.
Qed.

Section decode_codes.
Variables (rt : Node) (dict : gmap string string).
Hypothesis root_internal : Node_char rt = None.
Hypothesis dict_paths : forall k v, dict !! k = Some v -> leaf_path rt v k.

Lemma decode_loop_codes text tail result :
  decode_loop rt rt (String.concat "" (codes dict text) +:+ tail) result =
  decode_loop rt rt tail (result ++ chars (covered_part dict text)).
Proof.
  revert result. induction text as [|ch text IH]; intros result.
  - simpl. now rewrite app_nil_r.
  - simpl. destruct (dict !! String ch "") as [v|] eqn:E; [|apply IH].
    rewrite concat_empty_cons, append_assoc'.
    rewrite (decode_loop_path rt rt v (String ch "")) by auto.
    rewrite IH. simpl chars. now rewrite <- app_assoc.
Qed.
End decode_codes.

Lemma decode_loop_as_bits rt n s result :
  decode_loop rt n s result = decode_loop rt n (as_bits s) result.
Proof.
  revert n result. induction s as [|b s IH]; intros n result; [reflexivity|].
  simpl. destruct (Ascii.eqb b "0"); simpl;
    (destruct (_ n) as [next|]; [|reflexivity]);
    destruct (Node_char next); apply IH.
Qed.

Lemma as_bits_binary s : is_binary s = true -> as_bits s = s.
Proof.
  induction s as [|b s IH]; [reflexivity|]. simpl. intros H.
  apply andb_prop in H as [Hb Hs]. rewrite (IH Hs).
  destruct (Ascii.eqb_spec b "0") as [->|_]; [reflexivity|].
  destruct (Ascii.eqb_spec b "1") as [->|_]; [reflexivity | discriminate].
Qed.

(** On a proper tree whose root carries no symbol the walk never meets
    [None]. *)
Lemma decode_loop_proper rt :
  proper rt -> Node_char rt = None ->
  forall s n result, proper n -> Node_char n = None ->
    exists out, decode_loop rt n s result = Ok out.
Proof.
  intros Hrt Hc. induction s as [|b s IH]; intros n result Hn Hnc; simpl.
  - eauto.
  - destruct Hn as [c f l r|f l r Hl Hr]; [discriminate|]. simpl.
    destruct (Ascii.eqb b "0").
    + destruct (Node_char l) eqn:E; [apply IH | apply IH]; auto.
    + destruct (Node_char r) eqn:E; [apply IH | apply IH]; auto.
Qed.

(** A root without children: the first character already raises. *)
Lemma decode_loop_childless rt n b s result :
  Node_left n = None -> Node_right n = None ->
  decode_loop rt n (String b s) result = Raise AttributeError.
Proof. intros Hl Hr. simpl. rewrite Hl, Hr. now destruct (Ascii.eqb b "0"). Qed.

(** ** Construction of a [HuffmanMethod] *)

Lemma bind_Ok {A B} (m : res A) (k : A -> res B) (b : B) :
  mbind k m = Ok b -> exists a, m = Ok a /\ k a = Ok b.
Proof. destruct m as [a|e]; simpl; [eauto | discriminate]. Qed.

Lemma HuffmanMethod_init_inv nodes h :
  HuffmanMethod_init nodes = Ok h ->
  base_nodes h = nodes /\
  create_root_of_tree nodes = Ok (root h) /\
  generate_codes (root h) "" ∅ = Ok (code_dict h).
Proof.
  unfold HuffmanMethod_init. intros H.
  apply bind_Ok in H as (r & Hr & H). apply bind_Ok in H as (d & Hd & H).
  injection H as <-. auto.
Qed.

(** The entries of [code_dict] are paths from the root to their symbols. *)
Lemma HuffmanMethod_init_paths nodes h :
  HuffmanMethod_init nodes = Ok h ->
  forall k v, code_dict h !! k = Some v -> leaf_path (root h) v k.
Proof.
  intros H k v Hk. apply HuffmanMethod_init_inv in H as (_ & _ & Hg).
  destruct (generate_codes_entry _ _ _ _ Hg _ _ Hk) as [He|(p & -> & Hp)];
    [now rewrite lookup_empty in He | assumption].
Qed.

Lemma reaches_perm c l l' : l ≡ₚ l' -> reaches c l -> reaches c l'.
Proof. intros Hp (t & p & Ht & Hpath). exists t, p. now rewrite <- Hp. Qed.

Lemma reaches_merge c a b rest :
  reaches c (a :: b :: rest) -> reaches c (rest ++ [merged a b]).
Proof.
  intros (t & p & Ht & Hpath).
  apply elem_of_cons in Ht as [->|Ht]; [|apply elem_of_cons in Ht as [->|Ht]].
  - exists (merged a b), (String "0" p). split; [set_solver | now constructor].
  - exists (merged a b), (String "1" p). split; [set_solver | now constructor].
  - exists t, p. split; [set_solver | assumption].
Qed.

Lemma Forall_proper_perm l l' : l ≡ₚ l' -> Forall proper l -> Forall proper l'.
Proof. intros Hp. now rewrite Hp. Qed.

Lemma Forall_proper_merge a b rest :
  Forall proper (a :: b :: rest) -> Forall proper (rest ++ [merged a b]).
Proof.
  intros H. inversion H as [|? ? Ha H']; subst. inversion H' as [|? ? Hb Hr]; subst.
  apply Forall_app. split; [assumption|]. repeat constructor; assumption.
Qed.

(** Construction from proper nodes succeeds; every symbol of an input node gets
    a code; with two or more input nodes the root carries no symbol. *)
Lemma HuffmanMethod_init_proper nodes :
  Forall proper nodes -> nodes <> [] ->
  exists h,
    HuffmanMethod_init nodes = Ok h /\
    proper (root h) /\
    ((1 < length nodes)%nat -> Node_char (root h) = None) /\
    (forall n c, n ∈ nodes -> Node_char n = Some c -> is_Some (code_dict h !! c)).
Proof.
  intros Hp Hne.
  destruct (create_root_of_tree_total nodes Hne) as (r & Hloop & Hroot).
  assert (Hr : proper r).
  { pose proof (merge_loop_invariant _ Forall_proper_perm Forall_proper_merge
                  _ _ _ Hloop Hp) as H.
    now inversion H. }
  destruct (generate_codes_proper r Hr "" ∅) as [d Hd].
  exists (mkHuffmanMethod nodes r d). unfold HuffmanMethod_init.
  rewrite Hroot. simpl. rewrite Hd. simpl.
  split; [reflexivity|]. split; [assumption|]. split.
  - intros Hlen. eapply merge_loop_root_internal; eauto.
  - intros n c Hn Hc.
    assert (H0 : reaches c nodes).
    { exists n, "". split; [assumption|]. destruct n as [c' f l r']. simpl in Hc.
      subst c'. constructor. }
    pose proof (merge_loop_invariant _ (reaches_perm c) (reaches_merge c)
                  _ _ _ Hloop H0) as (t & p & Ht & Hpath).
    apply list_elem_of_singleton in Ht as ->.
    eapply generate_codes_covers; eauto.
Qed.

(** Decoding what was encoded gives back the characters that have a code. *)
Lemma decode_encode nodes h text :
  HuffmanMethod_init nodes = Ok h -> Node_char (root h) = None ->
  decode_text h (encode_text h text) = Ok (covered_part (code_dict h) text).
Proof.
  intros Hi Hc. unfold decode_text, encode_text.
  rewrite encode_loop_codes. simpl app.
  rewrite <- (append_empty_r (String.concat "" _)).
  rewrite (decode_loop_codes _ _ Hc (HuffmanMethod_init_paths _ _ Hi)).
  simpl. now rewrite concat_chars.
Qed.

(** ** [Counter] and the nodes of a [HuffmanBasedProcessor] *)

Lemma Counter_incr_keys key counts k :
  k ∈ (Counter_incr key counts).*1 <-> k = key \/ k ∈ counts.*1.
Proof.
  induction counts as [|[k' v] counts IH]; simpl.
  - set_solver.
  - destruct (String.eqb_spec k' key) as [->|Hne]; simpl; set_solver.
Qed.

Lemma Counter_loop_keys text counts k :
  k ∈ (Counter_loop text counts).*1 <-> k ∈ chars text \/ k ∈ counts.*1.
Proof.
  revert counts. induction text as [|ch text IH]; intros counts; simpl.
  - set_solver.
  - rewrite IH, Counter_incr_keys. set_solver.
Qed.

Lemma Counter_keys text k : k ∈ (Counter text).*1 <-> k ∈ chars text.
Proof. unfold Counter. rewrite Counter_loop_keys. set_solver. Qed.

Lemma Counter_incr_NoDup key counts :
  NoDup counts.*1 -> NoDup (Counter_incr key counts).*1.
Proof.
  induction counts as [|[k' v] counts IH]; simpl; intros Hnd.
  - repeat constructor. set_solver.
  - destruct (String.eqb_spec k' key) as [->|Hne]; simpl; [assumption|].
    apply NoDup_cons in Hnd as [Hk Hnd]. apply NoDup_cons. split; [|auto].
    rewrite Counter_incr_keys. intros [?|?]; [congruence | contradiction].
Qed.

Lemma Counter_NoDup text : NoDup (Counter text).*1.
Proof.
  unfold Counter. generalize (NoDup_nil_2 (A := string)).
  change (@nil string) with ((@nil (string * Z)).*1).
  generalize (@nil (string * Z)).
  induction text as [|ch text IH]; intros counts Hnd; simpl; [assumption|].
  apply IH. now apply Counter_incr_NoDup.
Qed.

Lemma two_elements {A} (l : list A) a b :
  a <> b -> a ∈ l -> b ∈ l -> (1 < length l)%nat.
Proof.
  intros Hne Ha Hb. destruct l as [|x [|y l]]; simpl; [| |lia].
  - now apply elem_of_nil in Ha.
  - apply list_elem_of_singleton in Ha, Hb. congruence.
Qed.

Lemma create_huffman_tree_length text :
  two_symbols text -> (1 < length (create_huffman_tree text))%nat.
Proof.
  intros (a & b & Hne & Ha & Hb). unfold create_huffman_tree, count_chars_freq.
  rewrite length_map, <- (length_map fst).
  apply (two_elements _ a b Hne); now apply Counter_keys.
Qed.

Lemma create_huffman_tree_proper text : Forall proper (create_huffman_tree text).
Proof.
  unfold create_huffman_tree. apply Forall_map, Forall_forall.
  intros [c f] _. constructor.
Qed.

Lemma create_huffman_tree_covers text k :
  k ∈ chars text ->
  exists n, n ∈ create_huffman_tree text /\ Node_char n = Some k.
Proof.
  intros Hk. apply Counter_keys in Hk.
  apply list_elem_of_fmap in Hk as ([c f] & -> & Hin).
  exists (leaf_node c f). split; [|reflexivity].
  unfold create_huffman_tree, count_chars_freq.
  apply list_elem_of_fmap. now exists (c, f).
Qed.

(** The round trip of a text in which two different characters occur. *)
Lemma Processor_roundtrip text :
  two_symbols text ->
  exists p,
    HuffmanBasedProcessor_init text = Ok p /\
    Processor_decode_text p (Processor_encode_text p None) = Ok text.
Proof.
  intros H2. pose proof (create_huffman_tree_length text H2) as Hlen.
  destruct (HuffmanMethod_init_proper (create_huffman_tree text))
    as (h & Hi & Hp & Hc & Hcov).
  { apply create_huffman_tree_proper. }
  { intros E. rewrite E in Hlen. simpl in Hlen. lia. }
  exists (mkHuffmanBasedProcessor text (create_huffman_tree text) h).
  unfold HuffmanBasedProcessor_init. rewrite Hi. split; [reflexivity|].
  unfold Processor_decode_text, Processor_encode_text. simpl.
  rewrite (decode_encode _ _ _ Hi (Hc Hlen)).
  rewrite covered_part_covers; [reflexivity|].
  intros k Hk. destruct (create_huffman_tree_covers text k Hk) as (n & Hn & Hnc).
  eauto.
Qed.

Lemma decode_loop_decoder_run rt bits :
  is_binary bits = true ->
  forall n result,
    outcome (decode_loop rt n bits result) =
    emitted <$> decoder_run rt (mkDecoderState n result) bits.
Proof.
  induction bits as [|b bits IH]; intros Hb n result; [reflexivity|].
  simpl in Hb. apply andb_prop in Hb as [Hb Hbits].
  simpl. unfold decoder_step. simpl.
  destruct (Ascii.eqb b "0").
  - destruct (Node_left n) as [next|]; [|reflexivity].
    destruct (Node_char next); now apply IH.
  - simpl in Hb. rewrite Hb.
    destruct (Node_right n) as [next|]; [|reflexivity].
    destruct (Node_char next); now apply IH.
Qed.

Lemma encode_spec_covers dict text :
  covers dict text ->
  encode_spec dict text = Encoded (String.concat "" (codes dict text)).
Proof.
  unfold covers. induction text as [|ch text IH]; intros H; [reflexivity|].
  simpl. destruct (H (String ch "")) as [v ->]; [simpl; left|].
  rewrite IH by (intros k Hk; apply H; simpl; now right).
  now rewrite concat_empty_cons.
Qed.

(** ** Texts of one repeated character *)

Example Counter_abracadabra :
  Counter "abracadabra" = [("a", 5); ("b", 2); ("r", 2); ("c", 1); ("d", 1)].
Proof. reflexivity. Qed.

Lemma Counter_loop_repeated ch n v :
  Counter_loop (repeated ch n) [(String ch "", v)] = [(String ch "", v + Z.of_nat n)].
Proof.
  revert v. induction n as [|n IH]; intros v.
  - simpl. now rewrite Z.add_0_r.
  - cbn [repeated Counter_loop Counter_incr]. rewrite String.eqb_refl, IH.
    replace (v + 1 + Z.of_nat n) with (v + Z.of_nat (S n)) by lia. reflexivity.
Qed.

Lemma create_huffman_tree_repeated ch n :
  create_huffman_tree (repeated ch (S n)) = [leaf_node (String ch "") (Z.of_nat (S n))].
Proof.
  unfold create_huffman_tree, count_chars_freq, Counter.
  cbn [repeated Counter_loop Counter_incr].
  rewrite Counter_loop_repeated.
  replace (1 + Z.of_nat n) with (Z.of_nat (S n)) by lia. reflexivity.
Qed.

Lemma codes_repeated ch n :
  String.concat "" (codes {[ String ch "" := "" ]} (repeated ch n)) = "".
Proof.
  induction n as [|n IH]; [reflexivity|].
  cbn [repeated codes]. rewrite lookup_singleton_eq, concat_empty_cons.
  exact IH.
Qed.

(** A text of one repeated character is encoded as the empty string, whatever
    its length, and decoding that gives the empty string. *)
Lemma Processor_single_symbol ch n :
  exists p,
    HuffmanBasedProcessor_init (repeated ch (S n)) = Ok p /\
    code_dict (huffman p) = {[ String ch "" := "" ]} /\
    Processor_encode_text p None = "" /\
    Processor_decode_text p (Processor_encode_text p None) = Ok "".
Proof.
  eexists. unfold HuffmanBasedProcessor_init.
  rewrite create_huffman_tree_repeated. split; [reflexivity|].
  split; [reflexivity|].
  assert (He : Processor_encode_text
            (mkHuffmanBasedProcessor (repeated ch (S n))
               [leaf_node (String ch "") (Z.of_nat (S n))]
               (mkHuffmanMethod [leaf_node (String ch "") (Z.of_nat (S n))]
                  (leaf_node (String ch "") (Z.of_nat (S n)))
                  (<[String ch "" := ""]> ∅))) None = "").
  { unfold Processor_encode_text, encode_text. cbn [base_text huffman code_dict].
    rewrite encode_loop_codes. apply (codes_repeated ch (S n)). }
  split; [exact He|]. rewrite He. reflexivity.
Qed.

(** ** The store model: what the operations change *)

Lemma run_bind {A B} (m : Heap.M A) (k : A -> Heap.M B) s :
  Heap.run (m ≫= k) s =
  match Heap.run m s with
  | (Ok a, s') => Heap.run (k a) s'
  | (Raise e, s') => (Raise e, s')
  end.
Proof. reflexivity. Qed.

Section preserves.
Variable R : Heap.store -> Heap.store -> Prop.
Context `{!PreOrder R}.

Lemma preserves_bind {A B} (m : Heap.M A) (k : A -> Heap.M B) :
  Heap.preserves R m -> (forall a, Heap.preserves R (k a)) ->
  Heap.preserves R (m ≫= k).
Proof.
  intros Hm Hk s. rewrite run_bind. specialize (Hm s).
  destruct (Heap.run m s) as [[a|e] s1]; simpl in *; [|assumption].
  etransitivity; [exact Hm | apply Hk].
Qed.

Lemma preserves_ret {A} (a : A) : Heap.preserves R (mret a).
Proof. intros s. simpl. reflexivity. Qed.

Lemma preserves_raise {A} e : Heap.preserves R (Heap.raise (A := A) e).
Proof. intros s. simpl. reflexivity. Qed.

Lemma preserves_get_node r : Heap.preserves R (Heap.get_node r).
Proof.
  intros s. unfold Heap.get_node. simpl.
  destruct (Heap.node_heap s !! r); simpl; reflexivity.
Qed.

Lemma preserves_get_list l : Heap.preserves R (Heap.get_list l).
Proof.
  intros s. unfold Heap.get_list. simpl.
  destruct (Heap.list_heap s !! l); simpl; reflexivity.
Qed.

Lemma preserves_get_frequency r : Heap.preserves R (Heap.get_frequency r).
Proof.
  apply preserves_bind; [apply preserves_get_node|].
  intros o. apply preserves_ret.
Qed.

Lemma preserves_list_len l : Heap.preserves R (Heap.list_len l).
Proof.
  apply preserves_bind; [apply preserves_get_list|].
  intros xs. apply preserves_ret.
Qed.

Lemma preserves_list_index0 l : Heap.preserves R (Heap.list_index0 l).
Proof.
  apply preserves_bind; [apply preserves_get_list|].
  intros [|x xs]; [apply preserves_raise | apply preserves_ret].
Qed.

Lemma preserves_frequencies xs : Heap.preserves R (Heap.frequencies xs).
Proof.
  induction xs as [|x xs IH]; simpl; [apply preserves_ret|].
  apply preserves_bind; [apply preserves_get_frequency|]. intros f.
  apply preserves_bind; [exact IH|]. intros ks. apply preserves_ret.
Qed.
End preserves.

#[local] Instance loop_step_preorder c : PreOrder (Heap.loop_step c).
Proof.
  split.
  - intros s. repeat split; auto.
  - intros s1 s2 s3 (Hn & Hl & Ho) (Hn' & Hl' & Ho'). split; [|split].
    + etransitivity; eassumption.
    + congruence.
    + intros l Hne. rewrite Ho', Ho by assumption. reflexivity.
Qed.

Lemma loop_step_new_Node c ch f l r :
  Heap.preserves (Heap.loop_step c) (Heap.new_Node ch f l r).
Proof.
  intros s. simpl. split; [|split]; [|reflexivity|reflexivity].
  now apply prefix_app_r.
Qed.

Lemma loop_step_set_list c xs :
  Heap.preserves (Heap.loop_step c) (Heap.set_list c xs).
Proof.
  intros s. simpl. split; [reflexivity|]. split.
  - apply length_insert.
  - intros l Hne. now apply list_lookup_insert_ne.
Qed.

Lemma loop_step_list_pop0 c : Heap.preserves (Heap.loop_step c) (Heap.list_pop0 c).
Proof.
  apply (preserves_bind _); [apply (preserves_get_list _)|].
  intros [|x xs]; [apply (preserves_raise _)|].
  apply (preserves_bind _); [apply loop_step_set_list|].
  intros _. apply (preserves_ret _).
Qed.

Lemma loop_step_list_append c x :
  Heap.preserves (Heap.loop_step c) (Heap.list_append c x).
Proof.
  apply (preserves_bind _); [apply (preserves_get_list _)|].
  intros xs. apply loop_step_set_list.
Qed.

Lemma loop_step_list_sort c : Heap.preserves (Heap.loop_step c) (Heap.list_sort c).
Proof.
  apply (preserves_bind _); [apply (preserves_get_list _)|]. intros xs.
  apply (preserves_bind _); [apply (preserves_frequencies _)|]. intros ks.
  apply loop_step_set_list.
Qed.

Lemma loop_step_merge_loop fuel c :
  Heap.preserves (Heap.loop_step c) (Heap.merge_loop fuel c).
Proof.
  induction fuel as [|fuel IH]; simpl; [apply (preserves_ret _)|].
  apply (preserves_bind _); [apply (preserves_list_len _)|]. intros n.
  destruct (1 <? n)%nat; [|apply (preserves_ret _)].
  apply (preserves_bind _); [apply loop_step_list_sort|]. intros _.
  apply (preserves_bind _); [apply loop_step_list_pop0|]. intros left_p.
  apply (preserves_bind _); [apply loop_step_list_pop0|]. intros right_p.
  apply (preserves_bind _); [apply (preserves_get_frequency _)|]. intros fl.
  apply (preserves_bind _); [apply (preserves_get_frequency _)|]. intros fr.
  apply (preserves_bind _); [apply loop_step_new_Node|]. intros new_node.
  apply (preserves_bind _); [apply loop_step_list_append|]. intros _.
  exact IH.
Qed.

Lemma loop_step_nodes_kept c s s' : Heap.loop_step c s s' -> Heap.nodes_kept s s'.
Proof. intros (Hn & _) r o Hr. eapply prefix_lookup_Some; eauto. Qed.

Lemma run_list_copy base s :
  Heap.run (Heap.list_copy base) s =
  match Heap.list_heap s !! base with
  | Some xs =>
      (Ok (length (Heap.list_heap s)),
       Heap.mkStore (Heap.node_heap s) (Heap.list_heap s ++ [xs]))
  | None => (Raise AttributeError, s)
  end.
Proof.
  unfold Heap.list_copy. rewrite run_bind. simpl.
  now destruct (Heap.list_heap s !! base).
Qed.

(** Tree construction keeps every node object and every list object that
    existed before it: the only list it updates is its own copy. *)
Lemma create_root_of_tree_keeps base s :
  Heap.nodes_kept s (Heap.run (Heap.create_root_of_tree base) s).2 /\
  Heap.lists_kept s (Heap.run (Heap.create_root_of_tree base) s).2.
Proof.
  unfold Heap.create_root_of_tree.
  rewrite run_bind, run_list_copy.
  destruct (Heap.list_heap s !! base) as [xs|] eqn:Hb.
  2:{ split; intros ? ? H; exact H. }
  set (c := length (Heap.list_heap s)).
  set (s1 := Heap.mkStore (Heap.node_heap s) (Heap.list_heap s ++ [xs])).
  match goal with |- context [Heap.run ?m s1] =>
    assert (Hstep : Heap.preserves (Heap.loop_step c) m) end.
  { apply (preserves_bind _); [apply (preserves_list_len _)|]. intros n.
    apply (preserves_bind _); [apply loop_step_merge_loop|]. intros _.
    apply (preserves_list_index0 _). }
  specialize (Hstep s1).
  match goal with |- context [Heap.run ?m s1] =>
    destruct (Heap.run m s1) as [r s'] end.
  simpl in *. destruct Hstep as (Hn & Hl & Ho). split.
  - intros r' o Hr. eapply prefix_lookup_Some; eauto.
  - intros l ys Hl'. pose proof (lookup_lt_Some _ _ _ Hl') as Hlt.
    rewrite Ho by (unfold c; lia). subst s1. simpl.
    now rewrite lookup_app_l.
Qed.

#[local] Instance eq_store_preorder : PreOrder (@eq Heap.store).
Proof. split; [intros s; reflexivity | intros s1 s2 s3; congruence]. Qed.

Lemma generate_codes_reads depth node pre dict :
  Heap.preserves eq (Heap.generate_codes depth node pre dict).
Proof.
  revert node pre dict. induction depth as [|depth IH]; intros node pre dict;
    simpl; [apply (preserves_raise _)|].
  destruct node as [r|]; [|apply (preserves_raise _)].
  apply (preserves_bind _); [apply (preserves_get_node _)|]. intros o.
  destruct (Heap.obj_char o); [apply (preserves_ret _)|].
  apply (preserves_bind _); [apply IH|]. intros d1. apply IH.
Qed.

Lemma decode_loop_reads rt n bits result :
  Heap.preserves eq (Heap.decode_loop rt n bits result).
Proof.
  revert n result. induction bits as [|b bits IH]; intros n result; simpl;
    [apply (preserves_ret _)|].
  apply (preserves_bind _); [apply (preserves_get_node _)|]. intros o.
  destruct (if Ascii.eqb b "0" then Heap.obj_left o else Heap.obj_right o)
    as [next|]; [|apply (preserves_raise _)].
  apply (preserves_bind _); [apply (preserves_get_node _)|]. intros o'.
  destruct (Heap.obj_char o'); apply IH.
Qed.

(** ** The store model computes what the value model computes *)

Lemma repr_inv heap r c f l r' :
  Heap.repr heap r (mkNode c f l r') ->
  exists lo ro,
    heap !! r = Some (Heap.mkNodeObj c f lo ro) /\
    option_Forall2 (Heap.repr heap) lo l /\
    option_Forall2 (Heap.repr heap) ro r'.
Proof. inversion 1; subst; eauto. Qed.

Lemma repr_mono heap heap' t :
  heap `prefix_of` heap' ->
  forall r, Heap.repr heap r t -> Heap.repr heap' r t.
Proof.
  intros Hpre. induction t as [c f l r' IHl IHr] using Node_ind'.
  intros r Hr. apply repr_inv in Hr as (lo & ro & Hlook & Hl & Hr).
  econstructor.
  - eapply prefix_lookup_Some; eauto.
  - destruct Hl; constructor. simpl in IHl. auto.
  - destruct Hr; constructor. simpl in IHr. auto.
Qed.

Lemma repr_frequency heap r t :
  Heap.repr heap r t ->
  exists o, heap !! r = Some o /\ Heap.obj_frequency o = Node_frequency t /\
            Heap.obj_char o = Node_char t.
Proof. destruct t. intros H. apply repr_inv in H as (lo & ro & H & _). eauto. Qed.

Lemma run_get_node r o s :
  Heap.node_heap s !! r = Some o -> Heap.run (Heap.get_node r) s = (Ok o, s).
Proof. intros H. unfold Heap.get_node. simpl. now rewrite H. Qed.

Lemma run_get_frequency r o s :
  Heap.node_heap s !! r = Some o ->
  Heap.run (Heap.get_frequency r) s = (Ok (Heap.obj_frequency o), s).
Proof.
  intros H. unfold Heap.get_frequency. now rewrite run_bind, (run_get_node r o).
Qed.

Lemma run_get_list l xs s :
  Heap.list_heap s !! l = Some xs -> Heap.run (Heap.get_list l) s = (Ok xs, s).
Proof. intros H. unfold Heap.get_list. simpl. now rewrite H. Qed.

Lemma run_list_len l xs s :
  Heap.list_heap s !! l = Some xs ->
  Heap.run (Heap.list_len l) s = (Ok (length xs), s).
Proof. intros H. unfold Heap.list_len. now rewrite run_bind, (run_get_list l xs). Qed.

Lemma run_list_pop0 l x xs s :
  Heap.list_heap s !! l = Some (x :: xs) ->
  Heap.run (Heap.list_pop0 l) s = (Ok x, Heap.with_list l xs s).
Proof.
  intros H. unfold Heap.list_pop0. now rewrite run_bind, (run_get_list l (x :: xs)).
Qed.

Lemma run_list_append l x xs s :
  Heap.list_heap s !! l = Some xs ->
  Heap.run (Heap.list_append l x) s = (Ok tt, Heap.with_list l (xs ++ [x]) s).
Proof.
  intros H. unfold Heap.list_append. now rewrite run_bind, (run_get_list l xs).
Qed.

Lemma run_list_index0 l x xs s :
  Heap.list_heap s !! l = Some (x :: xs) ->
  Heap.run (Heap.list_index0 l) s = (Ok x, s).
Proof.
  intros H. unfold Heap.list_index0. now rewrite run_bind, (run_get_list l (x :: xs)).
Qed.

Lemma with_list_lookup l xs ys s :
  Heap.list_heap s !! l = Some ys ->
  Heap.list_heap (Heap.with_list l xs s) !! l = Some xs.
Proof.
  intros H. simpl. apply list_lookup_insert_eq. eapply lookup_lt_Some; eauto.
Qed.

Lemma run_frequencies s xs ts :
  Forall2 (Heap.repr (Heap.node_heap s)) xs ts ->
  Heap.run (Heap.frequencies xs) s = (Ok (zip (map Node_frequency ts) xs), s).
Proof.
  induction 1 as [|x t xs ts Hx Hxs IH]; [reflexivity|].
  destruct (repr_frequency _ _ _ Hx) as (o & Ho & Hf & _).
  simpl Heap.frequencies.
  rewrite run_bind, (run_get_frequency x o), run_bind, IH by assumption.
  simpl. now rewrite Hf.
Qed.

Section sort_related.
Context {A B : Type} (keyA : A -> Z) (keyB : B -> Z) (Q : A -> B -> Prop).
Hypothesis Q_key : forall a b, Q a b -> keyA a = keyB b.

Lemma insert_by_key_related a b la lb :
  Q a b -> Forall2 Q la lb ->
  Forall2 Q (insert_by_key keyA a la) (insert_by_key keyB b lb).
Proof.
  intros Hab. induction 1 as [|a' b' la lb Hab' Hl IH]; simpl.
  - repeat constructor. assumption.
  - rewrite (Q_key _ _ Hab), (Q_key _ _ Hab').
    destruct (keyB b <=? keyB b'); repeat constructor; assumption.
Qed.

Lemma sort_by_key_related la lb :
  Forall2 Q la lb -> Forall2 Q (sort_by_key keyA la) (sort_by_key keyB lb).
Proof.
  induction 1; simpl; [constructor|]. now apply insert_by_key_related.
Qed.
End sort_related.

Lemma run_list_sort l s xs ts :
  Heap.list_heap s !! l = Some xs ->
  Forall2 (Heap.repr (Heap.node_heap s)) xs ts ->
  exists xs',
    Heap.run (Heap.list_sort l) s = (Ok tt, Heap.with_list l xs' s) /\
    Forall2 (Heap.repr (Heap.node_heap s)) xs' (sort_by_key Node_frequency ts).
Proof.
  intros Hl Hrep. unfold Heap.list_sort.
  rewrite run_bind, (run_get_list l xs), run_bind, (run_frequencies s xs ts)
    by assumption.
  eexists. split; [reflexivity|].
  set (Q := fun (kx : Z * Heap.ref) (t : Node) =>
              kx.1 = Node_frequency t /\ Heap.repr (Heap.node_heap s) kx.2 t).
  assert (HQ : Forall2 Q (zip (map Node_frequency ts) xs) ts).
  { clear Hl. induction Hrep; simpl; constructor; [split; auto | assumption]. }
  apply (sort_by_key_related fst Node_frequency Q) in HQ; [|now intros ? ? []].
  apply Forall2_fmap_l. eapply Forall2_impl; [exact HQ|]. now intros ? ? [].
Qed.

Lemma run_new_Node ch f l r s :
  Heap.run (Heap.new_Node ch f l r) s =
  (Ok (length (Heap.node_heap s)),
   Heap.mkStore (Heap.node_heap s ++ [Heap.mkNodeObj ch f l r]) (Heap.list_heap s)).
Proof. reflexivity. Qed.

Lemma heap_merge_loop_S fuel c :
  Heap.merge_loop (S fuel) c =
  (n ← Heap.list_len c;
   if (1 <? n)%nat then
     Heap.list_sort c;;
     left_p ← Heap.list_pop0 c;
     right_p ← Heap.list_pop0 c;
     fl ← Heap.get_frequency left_p;
     fr ← Heap.get_frequency right_p;
     new_node ← Heap.new_Node None (fl + fr) (Some left_p) (Some right_p);
     Heap.list_append c new_node;;
     Heap.merge_loop fuel c
   else mret tt).
Proof. reflexivity. Qed.

Lemma merge_loop_refines fuel c :
  forall s xs ts,
    Heap.list_heap s !! c = Some xs ->
    Forall2 (Heap.repr (Heap.node_heap s)) xs ts ->
    exists s' xs' ts',
      Heap.run (Heap.merge_loop fuel c) s = (Ok tt, s') /\
      merge_loop fuel ts = Ok ts' /\
      Heap.list_heap s' !! c = Some xs' /\
      Forall2 (Heap.repr (Heap.node_heap s')) xs' ts'.
Proof.
  induction fuel as [|fuel IH]; intros s xs ts Hc Hrep.
  - exists s, xs, ts. auto.
  - rewrite heap_merge_loop_S. simpl merge_loop.
    rewrite run_bind, (run_list_len c xs) by assumption.
    rewrite (Forall2_length _ _ _ Hrep).
    destruct (Nat.ltb_spec 1 (length ts)) as [Hlen|Hlen].
    2:{ exists s, xs, ts. auto. }
    destruct (merge_step_ok ts Hlen) as (a & b & rest & Hsort & Hstep).
    rewrite Hstep.
    destruct (run_list_sort c s xs ts Hc Hrep) as (sorted & Hrun & Hsorted).
    rewrite Hsort in Hsorted.
    apply Forall2_cons_inv_r in Hsorted as (xa & sorted1 & Ha & Hsorted & ->).
    apply Forall2_cons_inv_r in Hsorted as (xb & xrest & Hb & Hrest & ->).
    destruct (repr_frequency _ _ _ Ha) as (oa & Hoa & Hfa & _).
    destruct (repr_frequency _ _ _ Hb) as (ob & Hob & Hfb & _).
    rewrite run_bind, Hrun.
    rewrite run_bind, (run_list_pop0 c xa (xb :: xrest))
      by (eapply with_list_lookup; eauto).
    rewrite run_bind, (run_list_pop0 c xb xrest)
      by (eapply with_list_lookup, with_list_lookup; eauto).
    rewrite run_bind, (run_get_frequency xa oa) by exact Hoa.
    rewrite run_bind, (run_get_frequency xb ob) by exact Hob.
    rewrite Hfa, Hfb, run_bind, run_new_Node.
    match goal with |- context [Heap.run _ (Heap.mkStore ?ns ?ls)] =>
      set (s_new := Heap.mkStore ns ls) end.
    assert (Hc1 : Heap.list_heap s_new !! c = Some xrest).
    { subst s_new. simpl. apply list_lookup_insert_eq.
      rewrite !length_insert. eapply lookup_lt_Some; eauto. }
    rewrite run_bind, (run_list_append c _ xrest) by exact Hc1.
    apply IH with (xs := xrest ++ [length (Heap.node_heap s)]).
    + eapply with_list_lookup; eauto.
    + assert (Hpre : Heap.node_heap s `prefix_of` Heap.node_heap s_new)
        by (subst s_new; simpl; now apply prefix_app_r).
      apply Forall2_app.
      * eapply Forall2_impl; [exact Hrest|]. intros x t. now apply repr_mono.
      * repeat constructor. econstructor.
        -- subst s_new. simpl. rewrite lookup_app_r by lia.
           now rewrite Nat.sub_diag.
        -- constructor. now apply (repr_mono _ _ _ Hpre).
        -- constructor. now apply (repr_mono _ _ _ Hpre).
Qed.

(** Tree construction on the store builds a representation of the tree that
    the construction on values builds, and fails when that fails. *)
Lemma create_root_of_tree_refines base s xs ts :
  Heap.list_heap s !! base = Some xs ->
  Forall2 (Heap.repr (Heap.node_heap s)) xs ts ->
  match create_root_of_tree ts with
  | Ok t =>
      exists r s',
        Heap.run (Heap.create_root_of_tree base) s = (Ok r, s') /\
        Heap.repr (Heap.node_heap s') r t
  | Raise e =>
      exists s', Heap.run (Heap.create_root_of_tree base) s = (Raise e, s')
  end.
Proof.
  intros Hb Hrep. unfold Heap.create_root_of_tree, create_root_of_tree.
  rewrite run_bind, run_list_copy, Hb.
  set (c := length (Heap.list_heap s)).
  set (s1 := Heap.mkStore (Heap.node_heap s) (Heap.list_heap s ++ [xs])).
  assert (Hc : Heap.list_heap s1 !! c = Some xs).
  { subst s1 c. simpl. rewrite lookup_app_r by lia. now rewrite Nat.sub_diag. }
  rewrite run_bind, (run_list_len c xs), (Forall2_length _ _ _ Hrep) by exact Hc.
  destruct (merge_loop_refines (length ts) c s1 xs ts Hc Hrep)
    as (s' & xs' & ts' & Hrun & Hpure & Hc' & Hrep').
  rewrite run_bind, Hrun, Hpure. simpl mbind.
  destruct Hrep' as [|r t xs' ts' Hr Hrest]; simpl index0.
  - exists s'. unfold Heap.list_index0. now rewrite run_bind, (run_get_list c []).
  - exists r, s'. split; [|exact Hr]. now apply (run_list_index0 c r xs').
Qed.

Lemma heap_generate_codes_S depth r pre dict :
  Heap.generate_codes (S depth) (Some r) pre dict =
  (o ← Heap.get_node r;
   match Heap.obj_char o with
   | Some c => mret (<[c := pre]> dict)
   | None =>
       d1 ← Heap.generate_codes depth (Heap.obj_left o) (pre +:+ "0") dict;
       Heap.generate_codes depth (Heap.obj_right o) (pre +:+ "1") d1
   end).
Proof. reflexivity. Qed.

(** Code generation on the store, given room for one call more than the tree
    is high, returns what code generation on the value returns. *)
Lemma generate_codes_refines t :
  forall s r depth pre dict,
    Heap.repr (Heap.node_heap s) r t -> (height t < depth)%nat ->
    Heap.run (Heap.generate_codes depth (Some r) pre dict) s =
    (generate_codes t pre dict, s).
Proof.
  induction t as [c f l r' IHl IHr] using Node_ind'.
  intros s r depth pre dict Hrep Hd.
  apply repr_inv in Hrep as (lo & ro & Hlook & Hl & Hr).
  destruct depth as [|depth]; [lia|]. simpl in Hd.
  rewrite heap_generate_codes_S, run_bind, (run_get_node r _ s Hlook).
  destruct c as [ch|]; [reflexivity|]. cbn [Heap.obj_char Heap.obj_left Heap.obj_right].
  rewrite run_bind. simpl generate_codes.
  destruct Hl as [xl tl Hl|].
  2:{ destruct depth; [lia | reflexivity]. }
  simpl in IHl. rewrite (IHl s xl depth) by (assumption || lia).
  destruct (generate_codes tl (pre +:+ "0") dict) as [d1|e]; [|reflexivity].
  cbn [mbind res_bind].
  destruct Hr as [xr tr Hr|].
  2:{ destruct depth; [lia | reflexivity]. }
  simpl in IHr. apply IHr; [assumption | lia].
Qed.

(** The decoding walk on the store returns what the walk on the value
    returns. *)
Lemma decode_loop_refines bits :
  forall s rt n trt tn result,
    Heap.repr (Heap.node_heap s) rt trt ->
    Heap.repr (Heap.node_heap s) n tn ->
    Heap.run (Heap.decode_loop rt n bits result) s =
    (decode_loop trt tn bits result, s).
Proof.
  induction bits as [|b bits IH]; intros s rt n trt tn result Hrt Hn;
    [reflexivity|].
  destruct tn as [c f l r]. apply repr_inv in Hn as (lo & ro & Hlook & Hl & Hr).
  cbn [Heap.decode_loop decode_loop Node_left Node_right].
  rewrite run_bind, (run_get_node n _ s Hlook).
  cbn [Heap.obj_left Heap.obj_right].
  assert (Hchild : option_Forall2 (Heap.repr (Heap.node_heap s))
            (if Ascii.eqb b "0" then lo else ro)
            (if Ascii.eqb b "0" then l else r))
    by (destruct (Ascii.eqb b "0"); assumption).
  destruct Hchild as [next tnext Hnext|]; [|reflexivity].
  destruct (repr_frequency _ _ _ Hnext) as (o' & Ho' & _ & Hch).
  rewrite run_bind, (run_get_node next _ s Ho'), Hch.
  destruct (Node_char tnext); now apply IH.
Qed.

(** Construction of a [HuffmanMethod] on the store and on values. *)
Lemma HuffmanMethod_init_refines depth base s xs ts :
  Heap.list_heap s !! base = Some xs ->
  Forall2 (Heap.repr (Heap.node_heap s)) xs ts ->
  (forall t, create_root_of_tree ts = Ok t -> (height t < depth)%nat) ->
  match HuffmanMethod_init ts with
  | Ok h =>
      exists hh s',
        Heap.run (Heap.HuffmanMethod_init depth base) s = (Ok hh, s') /\
        Heap.base_nodes hh = base /\
        Heap.repr (Heap.node_heap s') (Heap.root hh) (root h) /\
        Heap.code_dict hh = code_dict h
  | Raise e =>
      exists s', Heap.run (Heap.HuffmanMethod_init depth base) s = (Raise e, s')
  end.
Proof.
  intros Hb Hrep Hdepth.
  pose proof (create_root_of_tree_refines base s xs ts Hb Hrep) as Hroot.
  unfold Heap.HuffmanMethod_init, HuffmanMethod_init. rewrite run_bind.
  destruct (create_root_of_tree ts) as [t|e].
  2:{ destruct Hroot as [s' ->]. exists s'. reflexivity. }
  destruct Hroot as (r & s' & -> & Hr).
  rewrite run_bind, (generate_codes_refines t s' r depth) by auto.
  cbn [mbind res_bind].
  destruct (generate_codes t "" ∅) as [d|e]; [|exists s'; reflexivity].
  eexists _, s'. split; [reflexivity|]. auto.
Qed.

(** The constructor on the store of two leaves: one node is added, the list
    it was given still holds the two leaves, the copy holds the root. *)
Example heap_two_leaves :
  Heap.run (Heap.HuffmanMethod_init 10 0%nat) Heap.two_leaves =
  (Ok (Heap.mkHuffmanMethod 0%nat 2%nat (<["b" := "1"]> (<["a" := "0"]> ∅))),
   Heap.mkStore
     [Heap.mkNodeObj (Some "a") 1 None None;
      Heap.mkNodeObj (Some "b") 1 None None;
      Heap.mkNodeObj None 2 (Some 0%nat) (Some 1%nat)]
     [[0%nat; 1%nat]; [2%nat]]).
Proof. reflexivity. Qed.

(** ** The claims *)

(** C1. The round trip
    [decode(encode(S, table(S)), tree(S)) = S] is claimed for every non-empty
    [S]. It holds whenever two different symbols occur in [S]
    ([Processor_roundtrip]); for a text of one repeated symbol, here "aaaa",
    the encoding is the empty string and decoding it returns the empty
    string: the text is lost. *)
Theorem roundtrip_aaaa_loses_text :
  exists p,
    HuffmanBasedProcessor_init "aaaa" = Ok p /\
    Processor_encode_text p None = "" /\
    Processor_decode_text p (Processor_encode_text p None) = Ok "" /\
    Processor_decode_text p (Processor_encode_text p None) <> Ok "aaaa".
Proof.
  eexists. split; [reflexivity|].
  split; [reflexivity|]. split; [reflexivity | discriminate].
Qed.

(** C2. With exactly one distinct symbol the code of that symbol is claimed to
    be a single bit and the round trip to hold. For the text "aaaa" the tree
    is the leaf alone, the code table is [{"a": ""}], a code of length 0, the
    encoding is empty and the round trip returns the empty string. The same
    holds for every text of one repeated character
    ([Processor_single_symbol]). *)
Theorem single_symbol_code_is_empty :
  exists p,
    HuffmanBasedProcessor_init "aaaa" = Ok p /\
    root (huffman p) = leaf_node "a" 4 /\
    code_dict (huffman p) = {[ "a" := "" ]} /\
    String.length <$> (code_dict (huffman p) !! "a") = Some 0%nat /\
    Processor_decode_text p (Processor_encode_text p None) = Ok "".
Proof.
  eexists. split; [reflexivity|]. simpl.
  split; [reflexivity|]. split; [reflexivity|]. split; reflexivity.
Qed.

(** C3, as claimed: [encode_text] behaves as the encoder of the specification,
    failing with [UnknownSymbol] on a symbol without an entry. It does not:
    with the table of "ab", the text "acb" is encoded as "01", the symbol "c"
    being skipped. *)
Lemma encode_text_skips_unknown_symbol :
  ~ (forall nodes h text,
       HuffmanMethod_init nodes = Ok h ->
       Encoded (encode_text h text) = encode_spec (code_dict h) text).
Proof.
  intros H.
  specialize (H two_nodes _ "acb" eq_refl). vm_compute in H. discriminate.
Qed.

(** C3, amended: [encode_text] never fails. Its output is the concatenation,
    in input order, of the codes of the characters that have an entry in
    [code_dict]; characters without an entry are skipped, so the output is
    that of the text without them. When every character has an entry this is
    the result of the encoder of the specification. *)
Theorem encode_text_skips_uncovered (h : HuffmanMethod) (text : string) :
  encode_text h text = String.concat "" (codes (code_dict h) text) /\
  encode_text h text = encode_text h (covered_part (code_dict h) text) /\
  (covers (code_dict h) text ->
   encode_spec (code_dict h) text = Encoded (encode_text h text)).
Proof.
  unfold encode_text. rewrite !encode_loop_codes. simpl app.
  split; [reflexivity|]. split.
  - now rewrite codes_covered_part.
  - apply encode_spec_covers.
Qed.

Lemma encode_text_skips_uncovered_witness :
  exists h,
    HuffmanMethod_init two_nodes = Ok h /\
    covers (code_dict h) "abba" /\
    encode_spec (code_dict h) "abba" = Encoded (encode_text h "abba").
Proof.
  eexists. split; [reflexivity|].
  assert (Hc : covers
            (code_dict (mkHuffmanMethod two_nodes
               (merged (leaf_node "a" 1) (leaf_node "b" 1))
               (<["b" := "1"]> (<["a" := "0"]> ∅)))) "abba").
  { intros k Hk. simpl in Hk.
    repeat (apply elem_of_cons in Hk as [->|Hk]; [vm_compute; eauto|]).
    now apply elem_of_nil in Hk. }
  split; [exact Hc|].
  exact (proj2 (proj2 (encode_text_skips_uncovered _ "abba")) Hc).
Defined.

(** C4. Constructing a [HuffmanMethod] from an empty node list fails: the
    loop is skipped and [copy_nodes[0]] raises (Python's [IndexError], the
    failure the specification calls EmptyInput). The same happens for a
    processor made from the empty text, whose node list is empty. *)
Theorem HuffmanMethod_init_empty :
  create_root_of_tree [] = Raise IndexError /\
  HuffmanMethod_init [] = Raise IndexError /\
  HuffmanBasedProcessor_init "" = Raise IndexError.
Proof. repeat split. Qed.

(** C5. In a code table derived from a tree, the codes of two distinct
    symbols are never a prefix of one another. This holds for every tree on
    which [_generate_codes] returns. *)
Theorem code_table_prefix_free (t : Node) (dict : gmap string string)
    (a b ca cb : string) :
  generate_codes t "" ∅ = Ok dict ->
  a <> b -> dict !! a = Some ca -> dict !! b = Some cb ->
  String.prefix ca cb = false /\ String.prefix cb ca = false.
Proof.
  intros Hg Hab Ha Hb.
  assert (Hpath : forall k v, dict !! k = Some v -> leaf_path t v k).
  { intros k v Hk.
    destruct (generate_codes_entry _ _ _ _ Hg _ _ Hk) as [He|(p & -> & Hp)];
      [now rewrite lookup_empty in He | assumption]. }
  apply Hpath in Ha, Hb.
  split.
  - destruct (String.prefix ca cb) eqn:E; [|reflexivity].
    apply prefix_split in E as [q ->].
    destruct (leaf_path_extend _ _ _ Ha _ _ Hb) as [_ ->]. contradiction.
  - destruct (String.prefix cb ca) eqn:E; [|reflexivity].
    apply prefix_split in E as [q ->].
    destruct (leaf_path_extend _ _ _ Hb _ _ Ha) as [_ ->]. contradiction.
Qed.

Lemma code_table_prefix_free_witness :
  generate_codes (merged (leaf_node "a" 1) (leaf_node "b" 1)) "" ∅
    = Ok (<["b" := "1"]> (<["a" := "0"]> ∅)) /\
  "a" <> "b" /\
  (<["b" := "1"]> (<["a" := "0"]> ∅) : gmap string string) !! "a" = Some "0" /\
  (<["b" := "1"]> (<["a" := "0"]> ∅) : gmap string string) !! "b" = Some "1" /\
  String.prefix "0" "1" = false /\ String.prefix "1" "0" = false.
Proof.
  split; [reflexivity|]. split; [discriminate|].
  split; [reflexivity|]. split; [reflexivity|].
  apply (code_table_prefix_free
           (merged (leaf_node "a" 1) (leaf_node "b" 1))
           (<["b" := "1"]> (<["a" := "0"]> ∅)) "a" "b" "0" "1");
    [reflexivity | discriminate | reflexivity | reflexivity].
Defined.

Lemma decode_text_proper nodes h :
  Forall proper nodes -> (1 < length nodes)%nat ->
  HuffmanMethod_init nodes = Ok h ->
  forall s, exists out, decode_text h s = Ok out.
Proof.
  intros Hp Hlen Hi s.
  destruct (HuffmanMethod_init_proper nodes Hp) as (h' & Hi' & Hr & Hc & _).
  { intros E. rewrite E in Hlen. simpl in Hlen. lia. }
  rewrite Hi in Hi'. injection Hi' as <-.
  destruct (decode_loop_proper (root h) Hr (Hc Hlen) s (root h) [] Hr (Hc Hlen))
    as [out Hout].
  unfold decode_text. rewrite Hout. simpl. eauto.
Qed.

(** C6. On a string of "0"s and "1"s [decode_text] is the state machine of the
    specification (start at the root, left on "0", right on "1", emit and
    return to the root on reaching a symbol, stop at the end of the input);
    and an input made of the codes of a text followed by a proper initial
    part [p] of a code decodes to that text: the partial code yields no
    symbol and no failure. *)
Theorem decode_text_state_machine (nodes : list Node) (h : HuffmanMethod) :
  HuffmanMethod_init nodes = Ok h ->
  (forall bits, is_binary bits = true ->
     outcome (decode_text h bits) = decode_spec (root h) bits) /\
  (forall text c code p q,
     covers (code_dict h) text ->
     code_dict h !! c = Some code -> code = p +:+ q -> q <> "" ->
     decode_text h (encode_text h text +:+ p) = Ok text).
Proof.
  intros Hi. split.
  - intros bits Hb. unfold decode_text, decode_spec.
    pose proof (decode_loop_decoder_run (root h) bits Hb (root h) []) as H.
    destruct (decode_loop (root h) (root h) bits []) as [result|e];
      destruct (decoder_run (root h) (mkDecoderState (root h) []) bits) as [st|];
      simpl in *; congruence.
  - intros text c code p q Hcov Hc -> Hq.
    pose proof (HuffmanMethod_init_paths _ _ Hi) as Hpaths.
    assert (Hroot : Node_char (root h) = None).
    { destruct (Node_char (root h)) as [s|] eqn:E; [|reflexivity].
      destruct (leaf_path_symbol _ _ _ (Hpaths _ _ Hc) s E) as [Hpq _].
      now apply append_eq_empty in Hpq. }
    unfold decode_text, encode_text. rewrite encode_loop_codes. simpl app.
    rewrite (decode_loop_codes _ _ Hroot Hpaths).
    rewrite (decode_loop_partial _ _ p q c (Hpaths _ _ Hc) Hq Hroot).
    simpl. now rewrite covered_part_covers, concat_chars.
Qed.

Lemma decode_text_state_machine_witness :
  exists h,
    HuffmanMethod_init three_nodes = Ok h /\
    code_dict h !! "a" = Some "10" /\
    outcome (decode_text h "01011") = decode_spec (root h) "01011" /\
    decode_text h (encode_text h "cab" +:+ "1") = Ok "cab".
Proof.
  eexists. split; [reflexivity|]. split; [reflexivity|].
  match goal with |- outcome (decode_text ?h _) = _ /\ _ =>
    destruct (decode_text_state_machine three_nodes h eq_refl) as [H1 H2]
  end.
  split.
  - apply H1. reflexivity.
  - apply (H2 "cab" "a" "10" "1" "0"); [|reflexivity|reflexivity|discriminate].
    intros k Hk. simpl in Hk.
    repeat (apply elem_of_cons in Hk as [->|Hk]; [vm_compute; eauto|]).
    now apply elem_of_nil in Hk.
Defined.

(** C7, as claimed: [decode_text] fails exactly on the inputs that hold a
    character other than "0" and "1". It does not: with the tree of two
    leaves "a" and "b" the input "2" decodes to "b". *)
Lemma decode_text_accepts_nonbinary :
  ~ (forall nodes h s,
       HuffmanMethod_init nodes = Ok h ->
       (raises (decode_text h s) <-> is_binary s = false)).
Proof.
  intros H.
  destruct (H two_nodes _ "2" eq_refl) as [_ Hr].
  destruct (Hr eq_refl) as [e He]. vm_compute in He. discriminate.
Qed.

(** C7, amended: [decode_text] has no check of its input characters. Any
    character other than "0" is read as "1", and with a tree built from two
    or more leaf nodes decoding fails on no input at all. *)
Theorem decode_text_never_fails (nodes : list Node) (h : HuffmanMethod) :
  Forall proper nodes -> (1 < length nodes)%nat ->
  HuffmanMethod_init nodes = Ok h ->
  forall s,
    decode_text h s = decode_text h (as_bits s) /\
    ~ raises (decode_text h s).
Proof.
  intros Hp Hlen Hi s. split.
  - unfold decode_text. now rewrite decode_loop_as_bits.
  - destruct (decode_text_proper nodes h Hp Hlen Hi s) as [out Hout].
    rewrite Hout. intros [e He]. discriminate.
Qed.

Lemma decode_text_never_fails_witness :
  exists h,
    HuffmanMethod_init two_nodes = Ok h /\
    Forall proper two_nodes /\ (1 < length two_nodes)%nat /\
    decode_text h "2x0" = decode_text h "110" /\
    ~ raises (decode_text h "2x0").
Proof.
  eexists. split; [reflexivity|].
  assert (Hp : Forall proper two_nodes) by (repeat constructor).
  assert (Hl : (1 < length two_nodes)%nat) by (simpl; lia).
  split; [exact Hp|]. split; [exact Hl|].
  exact (decode_text_never_fails two_nodes _ Hp Hl eq_refl "2x0").
Defined.

(** C8, as claimed: the frequencies a:5, b:9, c:12, d:13, e:16, f:45 give the
    code lengths f:1, c:3, b:3, d:3, a:4, e:3. They do not: the code of "b"
    has four bits. *)
Lemma example_code_lengths_b_is_not_3 :
  code_lengths_of ex_nodes ["f"; "c"; "b"; "d"; "a"; "e"]
  <> Ok [Some 1; Some 3; Some 3; Some 3; Some 4; Some 3]%nat.
Proof. vm_compute. discriminate. Qed.

(** C8, amended: the frequencies a:5, b:9, c:12, d:13, e:16, f:45 give the
    code lengths f:1, c:3, b:4, d:3, a:4, e:3 (the codes "0", "100", "1101",
    "101", "1100", "111"). *)
Theorem example_code_lengths :
  code_lengths_of ex_nodes ["f"; "c"; "b"; "d"; "a"; "e"]
    = Ok [Some 1; Some 3; Some 4; Some 3; Some 4; Some 3]%nat /\
  (h ← HuffmanMethod_init ex_nodes;
   Ok (map (fun k => code_dict h !! k) ["f"; "c"; "b"; "d"; "a"; "e"]))
    = Ok [Some "0"; Some "100"; Some "1101"; Some "101"; Some "1100"; Some "111"].
Proof. split; vm_compute; reflexivity. Qed.

(** C10. A [HuffmanMethod] built from one leaf node has that leaf as root,
    with no children, and [decode_text] raises on the first character of any
    non-empty input; with a [HuffmanMethod] built from two or more leaf
    nodes, [decode_text] returns on every input: the walk never meets a
    missing child. *)
Theorem decode_text_single_leaf_raises :
  (forall c f b s,
     exists h,
       HuffmanMethod_init [leaf_node c f] = Ok h /\
       root h = leaf_node c f /\
       Node_left (root h) = None /\ Node_right (root h) = None /\
       decode_text h (String b s) = Raise AttributeError) /\
  (forall nodes h,
     Forall (fun n => exists c f, n = leaf_node c f) nodes ->
     (1 < length nodes)%nat ->
     HuffmanMethod_init nodes = Ok h ->
     forall s, exists out, decode_text h s = Ok out).
Proof.
  split.
  - intros c f b s. eexists. split; [reflexivity|]. simpl.
    repeat (split; [reflexivity|]).
    unfold decode_text. simpl root.
    now rewrite decode_loop_childless.
  - intros nodes h Hleaf Hlen Hi.
    assert (Hp : Forall proper nodes).
    { eapply Forall_impl; [exact Hleaf|]. intros n (c & f & ->). constructor. }
    now apply (decode_text_proper nodes).
Qed.

Lemma decode_text_single_leaf_raises_witness :
  exists h,
    Forall (fun n => exists c f, n = leaf_node c f) two_nodes /\
    (1 < length two_nodes)%nat /\
    HuffmanMethod_init two_nodes = Ok h /\
    forall s, exists out, decode_text h s = Ok out.
Proof.
  assert (Hleaf : Forall (fun n => exists c f, n = leaf_node c f) two_nodes)
    by (repeat constructor; eauto).
  assert (Hl : (1 < length two_nodes)%nat) by (simpl; lia).
  eexists. split; [exact Hleaf|]. split; [exact Hl|].
  split; [reflexivity|].
  exact (proj2 decode_text_single_leaf_raises two_nodes _ Hleaf Hl eq_refl).
Defined.

(** C9. No operation changes a node object that exists: from any store, the
    construction loop (from any of its iterations on), the whole tree
    construction and the constructor keep every node object as it is, only
    adding new ones; code derivation, encoding and decoding leave the store
    as it is. The constructor also keeps every list object, among them the
    node list it was given: it sorts, pops and appends on its own copy. *)
Theorem nodes_never_mutated :
  (forall fuel c s,
     Heap.nodes_kept s (Heap.run (Heap.merge_loop fuel c) s).2) /\
  (forall base s,
     Heap.nodes_kept s (Heap.run (Heap.create_root_of_tree base) s).2 /\
     Heap.lists_kept s (Heap.run (Heap.create_root_of_tree base) s).2) /\
  (forall depth node pre dict s,
     (Heap.run (Heap.generate_codes depth node pre dict) s).2 = s) /\
  (forall depth base s,
     Heap.nodes_kept s (Heap.run (Heap.HuffmanMethod_init depth base) s).2 /\
     Heap.lists_kept s (Heap.run (Heap.HuffmanMethod_init depth base) s).2) /\
  (forall h text s, (Heap.run (Heap.encode_text h text) s).2 = s) /\
  (forall h bits s, (Heap.run (Heap.decode_text h bits) s).2 = s).
Proof.
  split; [|split; [|split; [|split; [|split]]]].
  - intros fuel c s. eapply loop_step_nodes_kept, loop_step_merge_loop.
  - apply create_root_of_tree_keeps.
  - intros depth node pre dict s. symmetry. apply generate_codes_reads.
  - intros depth base s. unfold Heap.HuffmanMethod_init. rewrite run_bind.
    pose proof (create_root_of_tree_keeps base s) as Hk.
    destruct (Heap.run (Heap.create_root_of_tree base) s) as [[r|e] s1];
      [|exact Hk].
    rewrite run_bind.
    pose proof (generate_codes_reads depth (Some r) "" ∅ s1) as Hg.
    destruct (Heap.run (Heap.generate_codes depth (Some r) "" ∅) s1)
      as [[d|e] s2]; simpl in Hg; subst s2; exact Hk.
  - reflexivity.
  - intros h bits s. unfold Heap.decode_text. rewrite run_bind.
    pose proof (decode_loop_reads (Heap.root h) (Heap.root h) bits [] s) as Hd.
    destruct (Heap.run (Heap.decode_loop _ _ bits []) s) as [[out|e] s1];
      simpl in Hd; now subst s1.
Qed.

(** * Further properties *)

(** ** Errors of the constructor *)









(** ** Round trips *)

Lemma decode_loop_result rt s :
  forall n result,
    decode_loop rt n s result =
    match decode_loop rt n s [] with
    | Ok out => Ok (result ++ out)
    | Raise e => Raise e
    end.
Proof.
  induction s as [|b s IH]; intros n result; simpl.
  - now rewrite app_nil_r.
  - destruct (if Ascii.eqb b "0" then Node_left n else Node_right n)
      as [next|]; [|reflexivity].
    destruct (Node_char next) as [c|].
    + rewrite (IH rt (result ++ [c])), (IH rt [c]).
      destruct (decode_loop rt rt s []); [|reflexivity].
      now rewrite <- app_assoc.
    + apply IH.
Qed.

Lemma codes_app dict t1 t2 :
  codes dict (t1 +:+ t2) = codes dict t1 ++ codes dict t2.
Proof.
  induction t1 as [|ch t1 IH]; [reflexivity|].
  rewrite append_String. simpl. destruct (dict !! String ch ""); [|exact IH].
  now rewrite IH.
Qed.

(** X2. With a tree built from two or more nodes, decoding the encoding of a
    text gives back the text without the characters that have no code, for
    every text and whatever symbols and frequencies the nodes carry (equal
    symbols on several nodes included); a text whose characters all have a
    code comes back unchanged. *)
Theorem decode_text_encode_text (nodes : list Node) (h : HuffmanMethod)
    (text : string) :
  Forall proper nodes -> (1 < length nodes)%nat ->
  HuffmanMethod_init nodes = Ok h ->
  decode_text h (encode_text h text) = Ok (covered_part (code_dict h) text) /\
  (covers (code_dict h) text -> decode_text h (encode_text h text) = Ok text).
Proof.
  intros Hp Hlen Hi.
  destruct (HuffmanMethod_init_proper nodes Hp) as (h' & Hi' & _ & Hc & _).
  { intros E. rewrite E in Hlen. simpl in Hlen. lia. }
  rewrite Hi in Hi'. injection Hi' as <-.
  pose proof (decode_encode nodes h text Hi (Hc Hlen)) as Hd.
  split; [exact Hd|]. intros Hcov. now rewrite Hd, covered_part_covers.
Qed.

Lemma decode_text_encode_text_witness :
  exists h,
    HuffmanMethod_init three_nodes = Ok h /\
    Forall proper three_nodes /\ (1 < length three_nodes)%nat /\
    decode_text h (encode_text h "cxab") = Ok "cab".
Proof.
  eexists. split; [reflexivity|].
  assert (Hp : Forall proper three_nodes) by (repeat constructor).
  assert (Hl : (1 < length three_nodes)%nat) by (simpl; lia).
  split; [exact Hp|]. split; [exact Hl|].
  exact (proj1 (decode_text_encode_text three_nodes _ "cxab" Hp Hl eq_refl)).
Defined.

(** What the constructor of the processor gives for a text in which two
    different characters occur. *)
Lemma Processor_init_two_symbols text :
  two_symbols text ->
  exists p,
    HuffmanBasedProcessor_init text = Ok p /\
    base_text p = text /\
    nodes p = create_huffman_tree text /\
    HuffmanMethod_init (create_huffman_tree text) = Ok (huffman p) /\
    proper (root (huffman p)) /\
    Node_char (root (huffman p)) = None /\
    covers (code_dict (huffman p)) text.
Proof.
  intros H2. pose proof (create_huffman_tree_length text H2) as Hlen.
  destruct (HuffmanMethod_init_proper (create_huffman_tree text))
    as (h & Hi & Hp & Hc & Hcov).
  { apply create_huffman_tree_proper. }
  { intros E. rewrite E in Hlen. simpl in Hlen. lia. }
  exists (mkHuffmanBasedProcessor text (create_huffman_tree text) h).
  unfold HuffmanBasedProcessor_init. rewrite Hi. simpl.
  repeat (split; [reflexivity || assumption || auto|]).
  intros k Hk. destruct (create_huffman_tree_covers text k Hk) as (n & Hn & Hnc).
  eauto.
Qed.

(** X3. A processor made from a text in which two different characters occur
    decodes what it encodes: the text it was made from, and every other text
    written with characters of that text. *)
Theorem Processor_roundtrip_over_alphabet (text text' : string) :
  two_symbols text ->
  (forall k, k ∈ chars text' -> k ∈ chars text) ->
  exists p,
    HuffmanBasedProcessor_init text = Ok p /\
    Processor_decode_text p (Processor_encode_text p None) = Ok text /\
    Processor_decode_text p (Processor_encode_text p (Some text')) = Ok text'.
Proof.
  intros H2 Hsub.
  destruct (Processor_init_two_symbols text H2)
    as (p & Hp & Hb & _ & Hi & _ & Hc & Hcov).
  exists p. split; [assumption|].
  unfold Processor_decode_text, Processor_encode_text. rewrite Hb.
  rewrite !(decode_encode _ _ _ Hi Hc). split.
  - now rewrite covered_part_covers.
  - rewrite covered_part_covers; [reflexivity|]. intros k Hk. auto.
Qed.

Lemma Processor_roundtrip_over_alphabet_witness :
  two_symbols "abracadabra" /\
  (forall k, k ∈ chars "cab" -> k ∈ chars "abracadabra") /\
  exists p,
    HuffmanBasedProcessor_init "abracadabra" = Ok p /\
    Processor_decode_text p (Processor_encode_text p None) = Ok "abracadabra" /\
    Processor_decode_text p (Processor_encode_text p (Some "cab")) = Ok "cab".
Proof.
  assert (H2 : two_symbols "abracadabra").
  { exists "a", "b". split; [discriminate|]. simpl. split; set_solver. }
  assert (Hs : forall k, k ∈ chars "cab" -> k ∈ chars "abracadabra").
  { intros k Hk. simpl in *. set_solver. }
  split; [exact H2|]. split; [exact Hs|].
  exact (Processor_roundtrip_over_alphabet "abracadabra" "cab" H2 Hs).
Defined.

(** ** Composition *)

Lemma encode_text_app h t1 t2 :
  encode_text h (t1 +:+ t2) = encode_text h t1 +:+ encode_text h t2.
Proof.
  unfold encode_text. rewrite !encode_loop_codes. simpl app.
  now rewrite codes_app, concat_empty_app.
Qed.

(** X4. Encoding and decoding compose over concatenation: the encoding of
    two texts one after the other is the concatenation of their encodings,
    and, with a tree built from two or more nodes, decoding the encoding of a
    text followed by any string gives the characters of the text that have a
    code followed by the decoding of that string. *)
Theorem decode_text_after_encoding (nodes : list Node) (h : HuffmanMethod)
    (t1 t2 s : string) :
  Forall proper nodes -> (1 < length nodes)%nat ->
  HuffmanMethod_init nodes = Ok h ->
  encode_text h (t1 +:+ t2) = encode_text h t1 +:+ encode_text h t2 /\
  decode_text h (encode_text h t1 +:+ s) =
    (out ← decode_text h s; Ok (covered_part (code_dict h) t1 +:+ out)) /\
  decode_text h (encode_text h t1 +:+ encode_text h t2) =
    Ok (covered_part (code_dict h) t1 +:+ covered_part (code_dict h) t2).
Proof.
  intros Hp Hlen Hi.
  destruct (HuffmanMethod_init_proper nodes Hp) as (h' & Hi' & _ & Hc & _).
  { intros E. rewrite E in Hlen. simpl in Hlen. lia. }
  rewrite Hi in Hi'. injection Hi' as <-. specialize (Hc Hlen).
  assert (Hs : forall s',
    decode_text h (encode_text h t1 +:+ s') =
    (out ← decode_text h s'; Ok (covered_part (code_dict h) t1 +:+ out))).
  { intros s'. unfold decode_text, encode_text at 1.
    rewrite encode_loop_codes. simpl app.
    rewrite (decode_loop_codes _ _ Hc (HuffmanMethod_init_paths _ _ Hi)).
    rewrite decode_loop_result. simpl app.
    destruct (decode_loop (root h) (root h) s' []) as [out|e]; [|reflexivity].
    simpl. now rewrite concat_empty_app, concat_chars. }
  split; [apply encode_text_app|]. split; [apply Hs|].
  rewrite Hs, (decode_encode _ _ _ Hi Hc). reflexivity.
Qed.

Lemma decode_text_after_encoding_witness :
  exists h,
    HuffmanMethod_init three_nodes = Ok h /\
    Forall proper three_nodes /\ (1 < length three_nodes)%nat /\
    encode_text h ("ca" +:+ "b") = encode_text h "ca" +:+ encode_text h "b" /\
    decode_text h (encode_text h "ca" +:+ "0111") = Ok "cacb" /\
    decode_text h (encode_text h "ca" +:+ encode_text h "b") = Ok "cab".
Proof.
  eexists. split; [reflexivity|].
  assert (Hp : Forall proper three_nodes) by (repeat constructor).
  assert (Hl : (1 < length three_nodes)%nat) by (simpl; lia).
  split; [exact Hp|]. split; [exact Hl|].
  exact (decode_text_after_encoding three_nodes _ "ca" "b" "0111" Hp Hl eq_refl).
Defined.

(** ** Texts of one repeated character, in general *)

Lemma codes_singleton_empty k text :
  String.concat "" (codes {[ k := "" ]} text) = "".
Proof.
  induction text as [|ch text IH]; [reflexivity|]. simpl.
  destruct (decide (k = String ch "")) as [->|Hne].
  - rewrite lookup_singleton_eq, concat_empty_cons. exact IH.
  - rewrite lookup_singleton_ne by assumption. exact IH.
Qed.

(** X5. A processor made from a text that is one character repeated has that
    character's leaf as its whole tree and the empty string as its code:
    every text is encoded as the empty string, and decoding any non-empty
    string raises [AttributeError]. *)
Theorem Processor_of_repeated_character (ch : ascii) (n : nat) :
  exists p,
    HuffmanBasedProcessor_init (repeated ch (S n)) = Ok p /\
    root (huffman p) = leaf_node (String ch "") (Z.of_nat (S n)) /\
    code_dict (huffman p) = {[ String ch "" := "" ]} /\
    (forall text, Processor_encode_text p text = "") /\
    (forall b s, Processor_decode_text p (String b s) = Raise AttributeError).
Proof.
  eexists. unfold HuffmanBasedProcessor_init.
  rewrite create_huffman_tree_repeated. split; [reflexivity|].
  split; [reflexivity|]. split; [reflexivity|]. split.
  - intros text. unfold Processor_encode_text, encode_text.
    rewrite encode_loop_codes. cbn [huffman code_dict app].
    apply codes_singleton_empty.
  - intros b s. unfold Processor_decode_text, decode_text. cbn [huffman root].
    now rewrite decode_loop_childless.
Qed.

(** ** What the tree holds *)

Lemma leaves_merged a b : leaves (merged a b) = leaves a ++ leaves b.
Proof. reflexivity. Qed.

Lemma flat_map_leaves_perm l l' :
  l ≡ₚ l' -> flat_map leaves l ≡ₚ flat_map leaves l'.
Proof.
  induction 1 as [|x l l' _ IH|x y l|l1 l2 l3 _ IH1 _ IH2]; simpl.
  - reflexivity.
  - now rewrite IH.
  - rewrite !app_assoc. f_equiv. apply Permutation_app_comm.
  - now rewrite IH1.
Qed.

Lemma flat_map_leaves_merge a b rest :
  flat_map leaves (rest ++ [merged a b]) ≡ₚ flat_map leaves (a :: b :: rest).
Proof.
  rewrite flat_map_app. cbn [flat_map]. rewrite app_nil_r, leaves_merged.
  rewrite (app_assoc (leaves a)). apply Permutation_app_comm.
Qed.

Lemma create_root_of_tree_leaves nodes r :
  create_root_of_tree nodes = Ok r ->
  leaves r ≡ₚ flat_map leaves nodes.
Proof.
  intros Hr.
  destruct nodes as [|n0 nodes0] eqn:En; [discriminate|]. rewrite <- En in *.
  destruct (create_root_of_tree_total nodes) as (r' & Hloop & Hroot);
    [subst; discriminate|].
  rewrite Hroot in Hr. injection Hr as ->.
  pose proof (merge_loop_invariant
                (fun l => flat_map leaves l ≡ₚ flat_map leaves nodes)) as Hinv.
  specialize (Hinv (fun l l' Hp H => transitivity
                      (symmetry (flat_map_leaves_perm l l' Hp)) H)).
  specialize (Hinv (fun a b rest H => transitivity
                      (flat_map_leaves_merge a b rest) H)).
  specialize (Hinv _ _ _ Hloop (reflexivity _)). simpl in Hinv.
  now rewrite app_nil_r in Hinv.
Qed.

Lemma flat_map_leaves_entries nodes :
  Forall (fun n => Node_char n <> None) nodes ->
  flat_map leaves nodes = omap entry_of nodes.
Proof.
  induction 1 as [|[c f l r] nodes Hc _ IH]; [reflexivity|].
  simpl in Hc. destruct c as [c|]; [|contradiction].
  simpl. unfold entry_of at 1. simpl. now rewrite IH.
Qed.

(** X6. The tree holds what the node list holds: the symbols and frequencies
    at its leaves are a rearrangement of those of the nodes given to the
    constructor, none lost and none added. *)
Theorem HuffmanMethod_init_leaves (nodes : list Node) (h : HuffmanMethod) :
  HuffmanMethod_init nodes = Ok h ->
  leaves (root h) ≡ₚ flat_map leaves nodes /\
  (Forall (fun n => Node_char n <> None) nodes ->
   leaves (root h) ≡ₚ omap entry_of nodes).
Proof.
  intros Hi. apply HuffmanMethod_init_inv in Hi as (_ & Hr & _).
  pose proof (create_root_of_tree_leaves _ _ Hr) as Hl.
  split; [exact Hl|]. intros Hc. now rewrite <- flat_map_leaves_entries.
Qed.

Lemma HuffmanMethod_init_leaves_witness :
  exists h,
    HuffmanMethod_init ex_nodes = Ok h /\
    leaves (root h) ≡ₚ
      [("a", 5); ("b", 9); ("c", 12); ("d", 13); ("e", 16); ("f", 45)].
Proof.
  eexists. split; [reflexivity|].
  refine (proj2 (HuffmanMethod_init_leaves ex_nodes _ eq_refl) _).
  repeat constructor; discriminate.
Defined.

Lemma leaf_path_in_leaves t p c : leaf_path t p c -> c ∈ (leaves t).*1.
Proof.
  induction 1 as [c f l r|f l r p c H IH|f l r p c H IH]; simpl.
  - set_solver.
  - rewrite fmap_app. set_solver.
  - rewrite fmap_app. set_solver.
Qed.

Lemma leaves_leaf_path t :
  forall c, c ∈ (leaves t).*1 -> exists p, leaf_path t p c.
Proof.
  induction t as [s f l r IHl IHr] using Node_ind'. intros c Hc.
  destruct s as [s|]; simpl in Hc.
  - apply list_elem_of_singleton in Hc as ->. eexists. constructor.
  - rewrite fmap_app in Hc. apply elem_of_app in Hc as [Hc|Hc].
    + destruct l as [ln|]; [|now apply elem_of_nil in Hc]. simpl in IHl.
      destruct (IHl c Hc) as [p Hp]. exists (String "0" p). now constructor.
    + destruct r as [rn|]; [|now apply elem_of_nil in Hc]. simpl in IHr.
      destruct (IHr c Hc) as [p Hp]. exists (String "1" p). now constructor.
Qed.

Lemma HuffmanMethod_init_keys nodes h k :
  HuffmanMethod_init nodes = Ok h ->
  is_Some (code_dict h !! k) <-> k ∈ (flat_map leaves nodes).*1.
Proof.
  intros Hi. pose proof (HuffmanMethod_init_paths _ _ Hi) as Hpaths.
  apply HuffmanMethod_init_inv in Hi as (_ & Hr & Hg).
  rewrite <- (create_root_of_tree_leaves _ _ Hr). split.
  - intros [v Hv]. eapply leaf_path_in_leaves; eauto.
  - intros Hk. destruct (leaves_leaf_path _ _ Hk) as [p Hp].
    eapply generate_codes_covers; eauto.
Qed.

Lemma flat_map_leaves_create_huffman_tree text :
  flat_map leaves (create_huffman_tree text) = Counter text.
Proof.
  unfold create_huffman_tree, count_chars_freq.
  induction (Counter text) as [|[c f] l IH]; [reflexivity|].
  simpl. now rewrite IH.
Qed.

Lemma HuffmanBasedProcessor_init_inv text p :
  HuffmanBasedProcessor_init text = Ok p ->
  base_text p = text /\ nodes p = create_huffman_tree text /\
  HuffmanMethod_init (create_huffman_tree text) = Ok (huffman p).
Proof.
  unfold HuffmanBasedProcessor_init. intros H.
  apply bind_Ok in H as (h & Hh & H). injection H as <-. auto.
Qed.

(** X7. The code table of a processor has an entry for exactly the
    characters that occur in the text it was made from. *)
Theorem Processor_code_dict_keys (text : string) (p : HuffmanBasedProcessor)
    (k : string) :
  HuffmanBasedProcessor_init text = Ok p ->
  is_Some (code_dict (huffman p) !! k) <-> k ∈ chars text.
Proof.
  intros Hp. apply HuffmanBasedProcessor_init_inv in Hp as (_ & _ & Hi).
  rewrite (HuffmanMethod_init_keys _ _ k Hi).
  rewrite flat_map_leaves_create_huffman_tree. apply Counter_keys.
Qed.

Lemma Processor_code_dict_keys_witness :
  exists p,
    HuffmanBasedProcessor_init "abba" = Ok p /\
    (is_Some (code_dict (huffman p) !! "b") <-> "b" ∈ chars "abba") /\
    (is_Some (code_dict (huffman p) !! "c") <-> "c" ∈ chars "abba").
Proof.
  eexists. split; [reflexivity|].
  split; exact (Processor_code_dict_keys "abba" _ _ eq_refl).
Defined.

(** ** Frequencies *)

Lemma total_app l1 l2 : total (l1 ++ l2) = total l1 + total l2.
Proof. induction l1 as [|x l1 IH]; simpl; [reflexivity | rewrite IH; lia]. Qed.

Lemma total_perm l l' : l ≡ₚ l' -> total l = total l'.
Proof. induction 1; simpl; lia. Qed.

Lemma consistent_frequency t :
  consistent t -> Node_frequency t = total (leaves t).*2.
Proof.
  induction 1 as [c f l r|l r Hl IHl Hr IHr]; simpl; [lia|].
  rewrite fmap_app, total_app. lia.
Qed.

Lemma Forall_consistent_perm l l' :
  l ≡ₚ l' -> Forall consistent l -> Forall consistent l'.
Proof. intros Hp. now rewrite Hp. Qed.

Lemma Forall_consistent_merge a b rest :
  Forall consistent (a :: b :: rest) -> Forall consistent (rest ++ [merged a b]).
Proof.
  intros H. inversion H as [|? ? Ha H']; subst. inversion H' as [|? ? Hb Hr]; subst.
  apply Forall_app. split; [assumption|]. repeat constructor; assumption.
Qed.

(** X8. The frequency of the root is the sum of the frequencies of the nodes
    given to the constructor; and when in each of these nodes every node
    without a symbol carries the sum of its two children (leaf nodes do), the
    same holds throughout the tree, so that every node carries the sum of the
    frequencies of the leaves below it. *)
Theorem HuffmanMethod_init_frequencies (nodes : list Node) (h : HuffmanMethod) :
  HuffmanMethod_init nodes = Ok h ->
  Node_frequency (root h) = total (map Node_frequency nodes) /\
  (Forall consistent nodes ->
   consistent (root h) /\ Node_frequency (root h) = total (leaves (root h)).*2).
Proof.
  intros Hi. apply HuffmanMethod_init_inv in Hi as (_ & Hr & _).
  destruct nodes as [|n0 nodes0] eqn:En; [discriminate|]. rewrite <- En in *.
  destruct (create_root_of_tree_total nodes) as (r' & Hloop & Hroot);
    [subst; discriminate|].
  rewrite Hroot in Hr. injection Hr as ->. split.
  - pose proof (merge_loop_invariant
      (fun l => total (map Node_frequency l) = total (map Node_frequency nodes)))
      as Hinv.
    assert (Hperm : forall l l' : list Node, l ≡ₚ l' ->
              total (map Node_frequency l) = total (map Node_frequency nodes) ->
              total (map Node_frequency l') = total (map Node_frequency nodes)).
    { intros l l' Hp <-. symmetry. apply total_perm. now rewrite Hp. }
    assert (Hmerge : forall a b rest,
              total (map Node_frequency (a :: b :: rest))
                = total (map Node_frequency nodes) ->
              total (map Node_frequency (rest ++ [merged a b]))
                = total (map Node_frequency nodes)).
    { intros a b rest <-. rewrite map_app, total_app. simpl. lia. }
    specialize (Hinv Hperm Hmerge _ _ _ Hloop eq_refl). simpl in Hinv. lia.
  - intros Hc.
    pose proof (merge_loop_invariant (Forall consistent)
                  Forall_consistent_perm
                  Forall_consistent_merge _ _ _ Hloop Hc) as H.
    assert (Hr : consistent (root h)) by now inversion H.
    split; [exact Hr|]. now apply consistent_frequency.
Qed.

Lemma HuffmanMethod_init_frequencies_witness :
  exists h,
    HuffmanMethod_init ex_nodes = Ok h /\
    Forall consistent ex_nodes /\
    Node_frequency (root h) = 100 /\
    consistent (root h).
Proof.
  eexists. split; [reflexivity|].
  assert (Hc : Forall consistent ex_nodes) by (repeat constructor).
  split; [exact Hc|].
  split.
  - exact (proj1 (HuffmanMethod_init_frequencies ex_nodes _ eq_refl)).
  - exact (proj1 (proj2 (HuffmanMethod_init_frequencies ex_nodes _ eq_refl) Hc)).
Defined.

(** ** The nodes a processor makes from its text *)

Lemma counted_cons k k' v counts :
  counted k ((k', v) :: counts) =
  (if String.eqb k' k then v else 0) + counted k counts.
Proof. unfold counted. simpl. now destruct (String.eqb k' k). Qed.

Lemma counted_incr k key counts :
  counted k (Counter_incr key counts) =
  counted k counts + (if String.eqb key k then 1 else 0).
Proof.
  induction counts as [|[k' v] counts IH]; cbn [Counter_incr].
  - rewrite counted_cons. change (counted k []) with 0.
    destruct (String.eqb key k); reflexivity.
  - destruct (String.eqb_spec k' key) as [->|Hne].
    + rewrite !counted_cons. destruct (String.eqb key k); lia.
    + rewrite !counted_cons, IH. lia.
Qed.

Lemma counted_loop k text :
  forall counts,
    counted k (Counter_loop text counts) = counted k counts + occurrences k text.
Proof.
  induction text as [|ch text IH]; intros counts;
    cbn [Counter_loop occurrences]; [lia|].
  rewrite IH, counted_incr. destruct (String.eqb (String ch "") k); lia.
Qed.

Lemma counted_absent k counts : k ∉ counts.*1 -> counted k counts = 0.
Proof.
  induction counts as [|[k' v] counts IH]; [reflexivity|].
  simpl. intros Hk. apply not_elem_of_cons in Hk as [Hne Hk].
  rewrite counted_cons, (IH Hk).
  destruct (String.eqb_spec k' k) as [->|_]; [contradiction | lia].
Qed.

Lemma counted_NoDup k v counts :
  NoDup counts.*1 -> (k, v) ∈ counts -> counted k counts = v.
Proof.
  induction counts as [|[k' v'] counts IH]; intros Hnd Hin.
  - now apply elem_of_nil in Hin.
  - simpl in Hnd. apply NoDup_cons in Hnd as [Hk' Hnd].
    rewrite counted_cons.
    apply elem_of_cons in Hin as [Heq|Hin].
    + injection Heq as <- <-. rewrite String.eqb_refl.
      rewrite counted_absent by assumption. lia.
    + destruct (String.eqb_spec k' k) as [->|_].
      * exfalso. apply Hk'. apply list_elem_of_fmap. now exists (k, v).
      * rewrite (IH Hnd Hin). lia.
Qed.

Lemma occurrences_chars k text : k ∈ chars text -> 1 <= occurrences k text.
Proof.
  assert (Hnn : forall t, 0 <= occurrences k t).
  { induction t as [|ch t IH]; cbn [occurrences]; [lia|].
    destruct (String.eqb (String ch "") k); lia. }
  induction text as [|ch text IH]; cbn [occurrences chars]; intros Hk.
  - now apply elem_of_nil in Hk.
  - apply elem_of_cons in Hk as [->|Hk].
    + rewrite String.eqb_refl. specialize (Hnn text). lia.
    + specialize (IH Hk). destruct (String.eqb (String ch "") k); lia.
Qed.

Lemma Counter_entry text k v :
  (k, v) ∈ Counter text <-> k ∈ chars text /\ v = occurrences k text.
Proof.
  split.
  - intros Hin. split.
    + apply Counter_keys, list_elem_of_fmap. now exists (k, v).
    + rewrite <- (counted_NoDup k v (Counter text) (Counter_NoDup text) Hin).
      unfold Counter. now rewrite counted_loop.
  - intros [Hk ->]. apply Counter_keys, list_elem_of_fmap in Hk
      as ([k' v'] & -> & Hin).
    simpl. rewrite <- (counted_NoDup k' v' (Counter text) (Counter_NoDup text) Hin)
      in Hin at 1.
    unfold Counter in Hin at 1. now rewrite counted_loop in Hin.
Qed.

Lemma total_Counter_incr key counts :
  total (Counter_incr key counts).*2 = total counts.*2 + 1.
Proof.
  unfold total. induction counts as [|[k v] counts IH]; simpl; [lia|].
  destruct (String.eqb k key); simpl in *; unfold fmap in *; lia.
Qed.

Lemma total_Counter_loop text :
  forall counts,
    total (Counter_loop text counts).*2 =
    total counts.*2 + Z.of_nat (String.length text).
Proof.
  induction text as [|ch text IH]; intros counts.
  - simpl. lia.
  - cbn [Counter_loop String.length]. rewrite IH, total_Counter_incr. lia.
Qed.

(** X9. The node list a processor makes from its text holds one leaf node
    for each character that occurs in the text, no character twice, with the
    number of its occurrences as frequency; the frequencies add up to the
    length of the text. *)
Theorem create_huffman_tree_nodes (text : string) :
  Forall is_leaf_node (create_huffman_tree text) /\
  NoDup (omap Node_char (create_huffman_tree text)) /\
  (forall c f,
     leaf_node c f ∈ create_huffman_tree text <->
     c ∈ chars text /\ f = occurrences c text) /\
  total (map Node_frequency (create_huffman_tree text))
    = Z.of_nat (String.length text).
Proof.
  unfold create_huffman_tree, count_chars_freq.
  split; [|split; [|split]].
  - apply Forall_map, Forall_forall. intros [c f] _. now exists c, f.
  - pose proof (Counter_NoDup text) as Hnd.
    induction (Counter text) as [|[c f] l IH]; simpl in *; [constructor|].
    apply NoDup_cons in Hnd as [Hc Hnd]. apply NoDup_cons. split; [|auto].
    intros Hin. apply Hc. clear -Hin.
    induction l as [|[c' f'] l IH]; simpl in *; [now apply elem_of_nil in Hin|].
    apply elem_of_cons in Hin as [->|Hin]; [left | right; auto].
  - intros c f. rewrite <- Counter_entry. split.
    + intros Hin. apply list_elem_of_fmap in Hin as ([c' f'] & Heq & Hin).
      now injection Heq as -> ->.
    + intros Hin. apply list_elem_of_fmap. now exists (c, f).
  - transitivity (total (Counter text).*2).
    + induction (Counter text) as [|[c f] l IH]; simpl;
        [reflexivity | now rewrite IH].
    + unfold Counter. now rewrite total_Counter_loop.
Qed.

(** ** Lengths of codes *)

Lemma proper_leaves_nonempty t : proper t -> (0 < length (leaves t))%nat.
Proof.
  induction 1 as [c f l r|f l r Hl IHl Hr IHr]; simpl; [lia|].
  rewrite length_app. lia.
Qed.

Lemma leaf_path_length t p c :
  leaf_path t p c -> proper t -> (String.length p < length (leaves t))%nat.
Proof.
  induction 1 as [c f l r|f l r p c H IH|f l r p c H IH]; intros Hp; simpl.
  - lia.
  - inversion Hp as [|? ? r' Hl Hr]; subst. rewrite length_app.
    specialize (IH Hl). pose proof (proper_leaves_nonempty _ Hr). lia.
  - inversion Hp as [|? l' ? Hl Hr]; subst. rewrite length_app.
    specialize (IH Hr). pose proof (proper_leaves_nonempty _ Hl). lia.
Qed.

Lemma is_leaf_node_proper nodes : Forall is_leaf_node nodes -> Forall proper nodes.
Proof.
  intros H. eapply Forall_impl; [exact H|]. intros n (c & f & ->). constructor.
Qed.

Lemma flat_map_leaves_length nodes :
  Forall is_leaf_node nodes -> length (flat_map leaves nodes) = length nodes.
Proof.
  induction 1 as [|n nodes (c & f & ->) _ IH]; [reflexivity|].
  simpl. now rewrite IH.
Qed.

(** X10. In the code table of a tree built from [n] leaf nodes, [n] at least
    two, every code has at least one bit and at most [n - 1] bits. *)
Theorem code_length_bounds (nodes : list Node) (h : HuffmanMethod)
    (k code : string) :
  Forall is_leaf_node nodes -> (1 < length nodes)%nat ->
  HuffmanMethod_init nodes = Ok h ->
  code_dict h !! k = Some code ->
  (1 <= String.length code <= length nodes - 1)%nat.
Proof.
  intros Hleaf Hlen Hi Hk.
  pose proof (is_leaf_node_proper _ Hleaf) as Hp.
  destruct (HuffmanMethod_init_proper nodes Hp) as (h' & Hi' & Hr & Hc & _).
  { intros E. rewrite E in Hlen. simpl in Hlen. lia. }
  rewrite Hi in Hi'. injection Hi' as <-. specialize (Hc Hlen).
  pose proof (HuffmanMethod_init_paths _ _ Hi _ _ Hk) as Hpath.
  pose proof (leaf_path_length _ _ _ Hpath Hr) as Hlt.
  apply HuffmanMethod_init_inv in Hi as (_ & Hroot & _).
  rewrite (Permutation_length (create_root_of_tree_leaves _ _ Hroot)) in Hlt.
  rewrite (flat_map_leaves_length _ Hleaf) in Hlt.
  split; [|lia].
  destruct code as [|b code]; [|simpl; lia].
  inversion Hpath as [c f l r Heq| |]. rewrite <- Heq in Hc. discriminate.
Qed.

Lemma code_length_bounds_witness :
  exists h,
    HuffmanMethod_init ex_nodes = Ok h /\
    Forall is_leaf_node ex_nodes /\ (1 < length ex_nodes)%nat /\
    code_dict h !! "a" = Some "1100" /\
    (1 <= String.length "1100" <= length ex_nodes - 1)%nat.
Proof.
  eexists. split; [reflexivity|].
  assert (Hleaf : Forall is_leaf_node ex_nodes)
    by (repeat constructor; eexists _, _; reflexivity).
  assert (Hl : (1 < length ex_nodes)%nat) by (simpl; lia).
  split; [exact Hleaf|]. split; [exact Hl|]. split; [reflexivity|].
  exact (code_length_bounds ex_nodes _ "a" "1100" Hleaf Hl eq_refl eq_refl).
Defined.

(** ** Decoding, then encoding *)

Lemma leaf_path_unique t p c :
  leaf_path t p c -> NoDup (leaves t).*1 ->
  forall p', leaf_path t p' c -> p' = p.
Proof.
  induction 1 as [c f l r|f l r p c H IH|f l r p c H IH]; intros Hnd p' H'.
  - now destruct (leaf_path_symbol _ _ _ H' c eq_refl).
  - simpl in Hnd. rewrite fmap_app in Hnd. apply NoDup_app in Hnd as (Hl & Hlr & Hr).
    inversion H'; subst.
    + f_equal. now apply IH.
    + exfalso. eapply Hlr; eapply leaf_path_in_leaves; eauto.
  - simpl in Hnd. rewrite fmap_app in Hnd. apply NoDup_app in Hnd as (Hl & Hlr & Hr).
    inversion H'; subst.
    + exfalso. eapply Hlr; eapply leaf_path_in_leaves; eauto.
    + f_equal. now apply IH.
Qed.

Lemma proper_has_leaf t : proper t -> exists q c, leaf_path t q c.
Proof.
  induction 1 as [c f l r|f l r Hl (q & c & Hq) Hr _].
  - exists "", c. constructor.
  - exists (String "0" q), c. now constructor.
Qed.

Section decode_then_encode.
Variables (rt : Node) (dict : gmap string string).
Hypothesis rt_proper : proper rt.
Hypothesis rt_internal : Node_char rt = None.
Hypothesis dict_complete : forall p c, leaf_path rt p c -> dict !! c = Some p.
Hypothesis one_character :
  forall p c, leaf_path rt p c -> exists ch, c = String ch EmptyString.

Lemma decode_loop_then_codes s :
  forall n pre,
    proper n -> Node_char n = None ->
    (forall q c, leaf_path n q c -> leaf_path rt (pre +:+ q) c) ->
    exists text tail,
      decode_loop rt n s [] = Ok (chars text) /\
      pre +:+ as_bits s = String.concat "" (codes dict text) +:+ tail /\
      covers dict text /\
      decode_loop rt rt tail [] = Ok [].
Proof.
  induction s as [|b s IH]; intros n pre Hn Hnc Hpre.
  - exists "", pre. split; [reflexivity|]. split; [now rewrite append_empty_r|].
    split; [intros k Hk; now apply elem_of_nil in Hk|].
    destruct (proper_has_leaf n Hn) as (q & c & Hq).
    apply (decode_loop_partial rt rt pre q c); auto.
    intros ->. inversion Hq as [c' f l r Heq| |]. rewrite <- Heq in Hnc.
    discriminate.
  - destruct Hn as [c f l r|f l r Hl Hr]; [discriminate|].
    cbn [decode_loop as_bits Node_left Node_right].
    set (b' := (if Ascii.eqb b "0" then "0" else "1")%char).
    set (next := if Ascii.eqb b "0" then l else r).
    assert (Hnext : proper next) by (unfold next; destruct (Ascii.eqb b "0"); auto).
    assert (Hstep : forall q c, leaf_path next q c ->
              leaf_path rt ((pre +:+ String b' "") +:+ q) c).
    { intros q c Hq. rewrite append_bit. apply Hpre. unfold next, b' in *.
      destruct (Ascii.eqb b "0"); now constructor. }
    replace (if Ascii.eqb b "0" then Some l else Some r) with (Some next)
      by (unfold next; now destruct (Ascii.eqb b "0")).
    destruct (Node_char next) as [c|] eqn:Hc.
    + assert (Hleaf : leaf_path next "" c).
      { destruct next as [c' ? ? ?]. simpl in Hc. subst c'. constructor. }
      specialize (Hstep _ _ Hleaf). rewrite append_empty_r in Hstep.
      destruct (one_character _ _ Hstep) as [ch ->].
      destruct (IH rt "") as (text & tail & Hd & Hbits & Hcov & Htail); auto.
      exists (String ch text), tail.
      rewrite decode_loop_result, Hd. split; [reflexivity|].
      cbn [codes]. rewrite (dict_complete _ _ Hstep), concat_empty_cons.
      split; [|split; [|exact Htail]].
      * rewrite append_empty_l in Hbits.
        rewrite <- append_bit, Hbits. now rewrite !append_assoc'.
      * intros k Hk. simpl in Hk. apply elem_of_cons in Hk as [->|Hk]; [|auto].
        rewrite (dict_complete _ _ Hstep). eauto.
    + destruct (IH next (pre +:+ String b' "")) as (text & tail & Hd & Hbits & H');
        auto.
      exists text, tail. split; [exact Hd|]. split; [|exact H'].
      now rewrite <- append_bit.
Qed.
End decode_then_encode.

Lemma chars_one_character text k :
  k ∈ chars text -> exists ch, k = String ch EmptyString.
Proof.
  induction text as [|ch text IH]; simpl; intros Hk.
  - now apply elem_of_nil in Hk.
  - apply elem_of_cons in Hk as [->|Hk]; eauto.
Qed.

Lemma Processor_leaves text p :
  HuffmanBasedProcessor_init text = Ok p ->
  leaves (root (huffman p)) ≡ₚ Counter text.
Proof.
  intros Hp. apply HuffmanBasedProcessor_init_inv in Hp as (_ & _ & Hi).
  apply HuffmanMethod_init_inv in Hi as (_ & Hr & _).
  rewrite (create_root_of_tree_leaves _ _ Hr).
  now rewrite flat_map_leaves_create_huffman_tree.
Qed.

Lemma Processor_dict_complete text p :
  HuffmanBasedProcessor_init text = Ok p ->
  forall path c,
    leaf_path (root (huffman p)) path c ->
    code_dict (huffman p) !! c = Some path.
Proof.
  intros Hp path c Hpath.
  pose proof (Processor_leaves _ _ Hp) as Hl.
  apply HuffmanBasedProcessor_init_inv in Hp as (_ & _ & Hi).
  pose proof (HuffmanMethod_init_paths _ _ Hi) as Hpaths.
  apply HuffmanMethod_init_inv in Hi as (_ & _ & Hg).
  destruct (generate_codes_covers _ _ _ _ Hg _ _ Hpath) as [v Hv].
  rewrite Hv. f_equal. apply (leaf_path_unique _ _ _ Hpath); [|auto].
  rewrite Hl. apply Counter_NoDup.
Qed.

(** X11. With a processor made from a text in which two different characters
    occur, every string is decoded, and encoding what was decoded gives the
    string back (each character other than "0" read as "1") up to its end:
    what is left over is an unfinished code, which by itself decodes to the
    empty text. *)
Theorem Processor_encode_decoded (text : string) :
  two_symbols text ->
  exists p,
    HuffmanBasedProcessor_init text = Ok p /\
    forall s, exists out tail,
      Processor_decode_text p s = Ok out /\
      as_bits s = Processor_encode_text p (Some out) +:+ tail /\
      Processor_decode_text p tail = Ok "".
Proof.
  intros H2.
  destruct (Processor_init_two_symbols text H2)
    as (p & Hp & _ & _ & Hi & Hproper & Hc & _).
  exists p. split; [assumption|]. intros s.
  destruct (decode_loop_then_codes (root (huffman p)) (code_dict (huffman p))
              Hproper Hc (Processor_dict_complete _ _ Hp)) with
    (s := s) (n := root (huffman p)) (pre := "")
    as (out & tail & Hd & Hbits & _ & Htail); auto.
  { intros path c Hpath. apply leaf_path_in_leaves in Hpath.
    rewrite (Processor_leaves _ _ Hp) in Hpath.
    apply Counter_keys in Hpath. eapply chars_one_character; eauto. }
  exists out, tail.
  unfold Processor_decode_text, Processor_encode_text, decode_text, encode_text.
  rewrite Hd, Htail, encode_loop_codes. simpl.
  rewrite concat_chars. auto.
Qed.

Lemma Processor_encode_decoded_witness :
  two_symbols "abracadabra" /\
  exists p,
    HuffmanBasedProcessor_init "abracadabra" = Ok p /\
    forall s, exists out tail,
      Processor_decode_text p s = Ok out /\
      as_bits s = Processor_encode_text p (Some out) +:+ tail /\
      Processor_decode_text p tail = Ok "".
Proof.
  assert (H2 : two_symbols "abracadabra").
  { exists "a", "b". split; [discriminate|]. simpl. split; set_solver. }
  split; [exact H2|]. exact (Processor_encode_decoded "abracadabra" H2).
Defined.

(** ** Length of the encoding *)

Lemma length_append (s1 s2 : string) :
  String.length (s1 +:+ s2) = (String.length s1 + String.length s2)%nat.
Proof.
  induction s1 as [|a s1 IH]; [reflexivity|].
  rewrite append_String. simpl. now rewrite IH.
Qed.

Lemma weighted_length_cons dict c f l :
  weighted_length dict ((c, f) :: l) =
  f * code_length dict c + weighted_length dict l.
Proof. reflexivity. Qed.

Lemma weighted_length_app dict l1 l2 :
  weighted_length dict (l1 ++ l2) =
  weighted_length dict l1 + weighted_length dict l2.
Proof. unfold weighted_length. now rewrite map_app, total_app. Qed.

Lemma weighted_length_perm dict l l' :
  l ≡ₚ l' -> weighted_length dict l = weighted_length dict l'.
Proof. intros Hp. unfold weighted_length. apply total_perm. now rewrite Hp. Qed.

Lemma weighted_length_incr dict key counts :
  weighted_length dict (Counter_incr key counts) =
  weighted_length dict counts + code_length dict key.
Proof.
  induction counts as [|[k v] counts IH]; cbn [Counter_incr].
  - rewrite weighted_length_cons. unfold weighted_length. simpl. lia.
  - destruct (String.eqb_spec k key) as [->|Hne].
    + rewrite !weighted_length_cons. lia.
    + rewrite !weighted_length_cons, IH. lia.
Qed.

Lemma weighted_length_Counter_loop dict text :
  forall counts,
    weighted_length dict (Counter_loop text counts) =
    weighted_length dict counts +
    Z.of_nat (String.length (String.concat "" (codes dict text))).
Proof.
  induction text as [|ch text IH]; intros counts.
  - simpl. lia.
  - cbn [Counter_loop codes]. rewrite IH, weighted_length_incr.
    unfold code_length. destruct (dict !! String ch "") as [v|]; [|lia].
    rewrite concat_empty_cons, length_append. lia.
Qed.

Lemma wsum_app A B : wsum (A ++ B) = wsum A + wsum B.
Proof. unfold wsum. now rewrite map_app, total_app. Qed.

(** With the codes of the leaves of [t] being [pre] followed by their paths
    in [t], frequency times code length sums to weight times depth. *)
Lemma weighted_length_leaves dict t :
  forall pre,
    (forall q c, leaf_path t q c -> dict !! c = Some (pre +:+ q)) ->
    weighted_length dict (leaves t) = wsum (leaf_depths (String.length pre) t).
Proof.
  induction t as [s f l r IHl IHr] using Node_ind'. intros pre Hd.
  destruct s as [s|].
  - cbn [leaves leaf_depths]. rewrite weighted_length_cons.
    unfold code_length. rewrite (Hd "" s (leaf_path_here _ _ _ _)).
    rewrite append_empty_r. unfold weighted_length, wsum. simpl. lia.
  - cbn [leaves leaf_depths]. rewrite weighted_length_app, wsum_app.
    f_equal.
    + destruct l as [ln|]; [|reflexivity]. simpl in IHl.
      rewrite (IHl (pre +:+ "0")).
      * rewrite length_append. simpl. do 2 f_equal. lia.
      * intros q c Hq. rewrite append_bit. apply Hd. now constructor.
    + destruct r as [rn|]; [|reflexivity]. simpl in IHr.
      rewrite (IHr (pre +:+ "1")).
      * rewrite length_append. simpl. do 2 f_equal. lia.
      * intros q c Hq. rewrite append_bit. apply Hd. now constructor.
Qed.

(** X12. The number of bits a processor produces for its own text is the
    weighted path length of its tree, the sum over the leaves of frequency
    times depth; it is also the sum, over the characters of the text, of
    number of occurrences times length of code. *)
Theorem Processor_encoding_length (text : string) (p : HuffmanBasedProcessor) :
  HuffmanBasedProcessor_init text = Ok p ->
  Z.of_nat (String.length (Processor_encode_text p None))
    = cost (root (huffman p)) /\
  Z.of_nat (String.length (Processor_encode_text p None))
    = weighted_length (code_dict (huffman p)) (count_chars_freq text).
Proof.
  intros Hp.
  pose proof (Processor_leaves _ _ Hp) as Hl.
  pose proof (Processor_dict_complete _ _ Hp) as Hd.
  destruct (HuffmanBasedProcessor_init_inv _ _ Hp) as (Hb & _ & _).
  assert (Hw : Z.of_nat (String.length (Processor_encode_text p None))
             = weighted_length (code_dict (huffman p)) (Counter text)).
  { unfold Processor_encode_text, encode_text. rewrite Hb, encode_loop_codes.
    simpl app. unfold Counter.
    rewrite weighted_length_Counter_loop. unfold weighted_length. simpl. lia. }
  split; [|exact Hw].
  rewrite Hw, <- (weighted_length_perm _ _ _ Hl).
  apply (weighted_length_leaves _ _ ""). intros q c Hq. now apply Hd.
Qed.

Lemma Processor_encoding_length_witness :
  exists p,
    HuffmanBasedProcessor_init "abracadabra" = Ok p /\
    Z.of_nat (String.length (Processor_encode_text p None)) = 23 /\
    cost (root (huffman p)) = 23.
Proof.
  eexists. split; [reflexivity|]. split; [reflexivity|].
  rewrite <- (proj1 (Processor_encoding_length "abracadabra" _ eq_refl)).
  reflexivity.
Defined.

(** ** The tree is optimal *)

Lemma realizable_perm E E' : realizable E -> E ≡ₚ E' -> realizable E'.
Proof.
  intros H Hp. inversion H as [Heq|d D E0 H0 HE Heq]; subst.
  - apply Permutation_singleton_l in Hp. subst. constructor.
  - eapply realizable_split; [exact H0|]. now rewrite <- Hp.
Qed.

Lemma realizable_subtree t :
  proper t ->
  forall d D, realizable (d :: D) -> realizable ((leaf_depths d t).*2 ++ D).
Proof.
  induction 1 as [c f l r|f l r Hl IHl Hr IHr]; intros d D HD; [exact HD|].
  cbn [leaf_depths]. rewrite fmap_app.
  assert (H1 : realizable (S d :: S d :: D))
    by (eapply realizable_split; [exact HD | reflexivity]).
  apply IHl in H1.
  assert (H2 : realizable (S d :: ((leaf_depths (S d) l).*2 ++ D))).
  { eapply realizable_perm; [exact H1|].
    symmetry. apply Permutation_middle. }
  apply IHr in H2. eapply realizable_perm; [exact H2|].
  rewrite <- app_assoc. rewrite (app_assoc (leaf_depths (S d) r).*2).
  rewrite (Permutation_app_comm (leaf_depths (S d) r).*2).
  now rewrite <- app_assoc.
Qed.

Lemma realizable_tree t : proper t -> realizable (leaf_depths 0 t).*2.
Proof.
  intros Hp. rewrite <- (app_nil_r (leaf_depths 0 t).*2).
  apply realizable_subtree; [assumption | constructor].
Qed.

(** Two leaves of greatest depth can be taken back into one leaf. *)
Lemma realizable_deepest E :
  realizable E -> (2 <= length E)%nat ->
  exists m E',
    E ≡ₚ S m :: S m :: E' /\
    (forall x, x ∈ E -> (x <= S m)%nat) /\
    realizable (m :: E').
Proof.
  induction 1 as [|d D E H IH HE]; intros Hlen; [simpl in Hlen; lia|].
  destruct D as [|d2 D2].
  - exists d, []. split; [exact HE|]. split; [|exact H].
    intros x Hx. rewrite HE in Hx. set_solver by lia.
  - destruct IH as (m & E' & Hperm & Hmax & Hreal); [simpl; lia|].
    assert (Hd : (d <= S m)%nat) by (apply Hmax; left).
    destruct (decide (d = S m)) as [->|Hne].
    + exists (S m), (d2 :: D2). split; [exact HE|]. split; [|exact H].
      intros x Hx. rewrite HE in Hx.
      apply elem_of_cons in Hx as [->|Hx]; [lia|].
      apply elem_of_cons in Hx as [->|Hx]; [lia|].
      assert (x <= S m)%nat by (apply Hmax; now right). lia.
    + assert (HdE : d ∈ E').
      { assert (Hin : d ∈ S m :: S m :: E') by (rewrite <- Hperm; left).
        set_solver. }
      apply elem_of_Permutation in HdE as [E'' HE''].
      assert (HD : d2 :: D2 ≡ₚ S m :: S m :: E'').
      { apply (Permutation_cons_inv (a := d)). rewrite Hperm, HE''.
        solve_Permutation. }
      exists m, (S d :: S d :: E''). split; [|split].
      * rewrite HE, HD. solve_Permutation.
      * intros x Hx. rewrite HE in Hx.
        apply elem_of_cons in Hx as [->|Hx]; [lia|].
        apply elem_of_cons in Hx as [->|Hx]; [lia|].
        apply Hmax. now right.
      * eapply (realizable_split d (m :: E'')).
        -- eapply realizable_perm; [exact Hreal|]. rewrite HE''.
           solve_Permutation.
        -- solve_Permutation.
Qed.

Lemma realizable_length E : realizable E -> (length E <= 1)%nat -> E = [0%nat].
Proof.
  intros H Hlen. inversion H as [Heq|d D E0 H0 HE Heq]; subst; [reflexivity|].
  apply Permutation_length in HE. simpl in HE. lia.
Qed.

Lemma wsum_cons w d A : wsum ((w, d) :: A) = w * Z.of_nat d + wsum A.
Proof. reflexivity. Qed.

Lemma wsum_perm A A' : A ≡ₚ A' -> wsum A = wsum A'.
Proof. intros Hp. unfold wsum. apply total_perm. now rewrite Hp. Qed.

(** A smallest weight can be given a greatest depth at no cost. *)
Lemma assign_smallest_deepest (A : list (Z * nat)) w ws m E :
  A.*1 ≡ₚ w :: ws -> (forall x, x ∈ ws -> w <= x) ->
  A.*2 ≡ₚ m :: E -> (forall d, d ∈ E -> (d <= m)%nat) ->
  exists A' : list (Z * nat),
    A'.*1 ≡ₚ ws /\ A'.*2 ≡ₚ E /\ w * Z.of_nat m + wsum A' <= wsum A.
Proof.
  intros Hw Hmin Hd Hmax.
  assert (Hin : w ∈ A.*1) by (rewrite Hw; left).
  apply list_elem_of_fmap in Hin as ([w' da] & Heq & Hin). simpl in Heq. subst w'.
  apply elem_of_Permutation in Hin as [A1 HA1].
  assert (Hw1 : A1.*1 ≡ₚ ws).
  { apply (Permutation_cons_inv (a := w)). rewrite <- Hw, HA1. reflexivity. }
  assert (Hd1 : da :: A1.*2 ≡ₚ m :: E) by (rewrite <- Hd, HA1; reflexivity).
  destruct (decide (da = m)) as [->|Hne].
  - exists A1. split; [exact Hw1|]. split.
    + now apply (Permutation_cons_inv (a := m)).
    + rewrite (wsum_perm _ _ HA1), wsum_cons. lia.
  - assert (Hm : m ∈ A1.*2).
    { assert (H : m ∈ da :: A1.*2) by (rewrite Hd1; left). set_solver. }
    apply list_elem_of_fmap in Hm as ([x m'] & Heq & Hm). simpl in Heq. subst m'.
    apply elem_of_Permutation in Hm as [A2 HA2].
    assert (Hda : (da <= m)%nat).
    { apply Hmax. assert (H : da ∈ m :: E) by (rewrite <- Hd1; left). set_solver. }
    assert (Hx : w <= x).
    { apply Hmin. rewrite <- Hw1, HA2. left. }
    exists ((x, da) :: A2). split; [|split].
    + rewrite <- Hw1, HA2. reflexivity.
    + apply (Permutation_cons_inv (a := m)). rewrite <- Hd1, HA2. simpl.
      apply Permutation_swap.
    + rewrite (wsum_perm _ _ HA1), !wsum_cons, (wsum_perm _ _ HA2), !wsum_cons.
      nia.
Qed.

#[local] Instance id_le_transitive : Transitive (fun a b : Z => id a <= id b).
Proof. intros a b c. unfold id. lia. Qed.

#[local] Instance id_le_antisymm : AntiSymm eq (fun a b : Z => id a <= id b).
Proof. intros a b. unfold id. lia. Qed.

Lemma sort_by_key_id_perm ws ws' :
  ws ≡ₚ ws' -> sort_by_key id ws = sort_by_key id ws'.
Proof.
  intros Hp. apply (Sorted_unique (fun a b : Z => id a <= id b)).
  - apply sort_by_key_ascending.
  - apply sort_by_key_ascending.
  - now rewrite !sort_by_key_perm.
Qed.

Lemma greedy_cost_perm fuel ws ws' :
  ws ≡ₚ ws' -> greedy_cost fuel ws = greedy_cost fuel ws'.
Proof.
  intros Hp. destruct fuel as [|fuel]; [reflexivity|]. simpl.
  now rewrite (Permutation_length Hp), (sort_by_key_id_perm _ _ Hp).
Qed.

Lemma sort_by_key_id_smallest ws a b rest :
  sort_by_key id ws = a :: b :: rest ->
  a <= b /\ (forall x, x ∈ rest -> b <= x).
Proof.
  intros Hs. pose proof (sort_by_key_ascending id ws) as Ha.
  rewrite Hs in Ha. unfold ascending in Ha.
  apply (Sorted_StronglySorted (fun a b : Z => id a <= id b)) in Ha.
  inversion Ha as [|? ? Hb Hall]; subst.
  inversion Hb as [|? ? _ Hall']; subst.
  split.
  - inversion Hall; subst. assumption.
  - intros x Hx. rewrite Forall_forall in Hall'. now apply Hall'.
Qed.

(** No assignment of the weights to the leaves of a tree costs less than the
    merging of the two smallest. *)
Lemma greedy_cost_lower fuel :
  forall A : list (Z * nat),
    (length A <= fuel)%nat -> realizable A.*2 ->
    greedy_cost fuel A.*1 <= wsum A.
Proof.
  induction fuel as [|fuel IH]; intros A Hlen Hreal.
  - destruct A; [reflexivity | simpl in Hlen; lia].
  - cbn [greedy_cost]. rewrite length_fmap.
    destruct (Nat.ltb_spec 1 (length A)) as [H2|H1].
    2:{ apply realizable_length in Hreal; [|now rewrite length_fmap].
        destruct A as [|[w d] [|? ?]]; try discriminate.
        injection Hreal as ->. rewrite wsum_cons. unfold wsum. simpl. lia. }
    pose proof (sort_by_key_length id A.*1) as Hsl. rewrite length_fmap in Hsl.
    destruct (sort_by_key id A.*1) as [|a [|b rest]] eqn:Hs;
      simpl in Hsl; try lia.
    destruct (sort_by_key_id_smallest _ _ _ _ Hs) as [Hab Hrest].
    pose proof (sort_by_key_perm id A.*1) as Hperm. rewrite Hs in Hperm.
    destruct (realizable_deepest _ Hreal) as (m & E' & HE & Hmax & Hreal');
      [rewrite length_fmap; lia|].
    assert (Hmin1 : forall x, x ∈ b :: rest -> a <= x).
    { intros x Hx. apply elem_of_cons in Hx as [->|Hx]; [lia|].
      specialize (Hrest x Hx). lia. }
    assert (Hmax1 : forall d, d ∈ S m :: E' -> (d <= S m)%nat).
    { intros d Hd. apply Hmax. rewrite HE. now right. }
    assert (Hmax2 : forall d, d ∈ E' -> (d <= S m)%nat).
    { intros d Hd. apply Hmax. rewrite HE. now do 2 right. }
    destruct (assign_smallest_deepest A a (b :: rest) (S m) (S m :: E')
                (symmetry Hperm) Hmin1 HE Hmax1) as (A1 & Hw1 & Hd1 & Hc1).
    destruct (assign_smallest_deepest A1 b rest (S m) E' Hw1 Hrest Hd1 Hmax2)
      as (A2 & Hw2 & Hd2 & Hc2).
    specialize (IH ((a + b, m) :: A2)).
    assert (Hl2 : length A2 = length rest)
      by (rewrite <- (length_fmap fst A2); now apply Permutation_length).
    rewrite (greedy_cost_perm fuel (rest ++ [a + b]) ((a + b, m) :: A2).*1).
    2:{ simpl. rewrite Hw2. symmetry. apply Permutation_cons_append. }
    assert (IH' : greedy_cost fuel ((a + b, m) :: A2).*1 <= wsum ((a + b, m) :: A2)).
    { apply IH; [simpl; lia|]. simpl.
      eapply realizable_perm; [exact Hreal'|]. now rewrite Hd2. }
    rewrite wsum_cons in IH'. nia.
Qed.

Lemma leaf_depths_weights t : forall d, (leaf_depths d t).*1 = (leaves t).*2.
Proof.
  induction t as [s f l r IHl IHr] using Node_ind'. intros d.
  destruct s as [s|]; [reflexivity|]. cbn [leaf_depths leaves].
  rewrite !fmap_app. f_equal.
  - destruct l as [ln|]; [apply IHl | reflexivity].
  - destruct r as [rn|]; [apply IHr | reflexivity].
Qed.

(** One level deeper, the cost grows by the weight. *)
Lemma leaf_depths_deeper t :
  forall d,
    wsum (leaf_depths (S d) t) = wsum (leaf_depths d t) + total (leaves t).*2.
Proof.
  induction t as [s f l r IHl IHr] using Node_ind'. intros d.
  destruct s as [s|].
  - cbn [leaf_depths leaves]. rewrite !wsum_cons. unfold wsum. simpl. lia.
  - cbn [leaf_depths leaves]. rewrite !wsum_app, fmap_app, total_app.
    assert (Hl : wsum match l with Some x => leaf_depths (S (S d)) x | None => [] end
               = wsum match l with Some x => leaf_depths (S d) x | None => [] end
                 + total (match l with Some x => leaves x | None => [] end).*2).
    { destruct l as [ln|]; [apply IHl | reflexivity]. }
    assert (Hr : wsum match r with Some x => leaf_depths (S (S d)) x | None => [] end
               = wsum match r with Some x => leaf_depths (S d) x | None => [] end
                 + total (match r with Some x => leaves x | None => [] end).*2).
    { destruct r as [rn|]; [apply IHr | reflexivity]. }
    lia.
Qed.

Lemma cost_merged a b :
  consistent a -> consistent b ->
  cost (merged a b) = cost a + cost b + Node_frequency a + Node_frequency b.
Proof.
  intros Ha Hb. unfold cost, merged. cbn [leaf_depths].
  rewrite wsum_app, !leaf_depths_deeper.
  rewrite <- (consistent_frequency a Ha), <- (consistent_frequency b Hb). lia.
Qed.

Lemma map_sort_by_key_frequency l :
  map Node_frequency (sort_by_key Node_frequency l) =
  sort_by_key id (map Node_frequency l).
Proof.
  assert (H : Forall2 (fun n w => Node_frequency n = w) l (map Node_frequency l)).
  { induction l; constructor; auto. }
  apply (sort_by_key_related Node_frequency id) in H; [|auto].
  induction H as [|n w ns ws Hn _ IH]; [reflexivity|].
  simpl. now rewrite Hn, IH.
Qed.

(** The cost of the tree the loop builds: the costs of the trees it starts
    from, and the sum of the frequencies of the nodes it makes. *)
Lemma merge_loop_cost fuel :
  forall l r,
    Forall consistent l -> merge_loop fuel l = Ok [r] ->
    cost r = total (map cost l) + greedy_cost fuel (map Node_frequency l).
Proof.
  induction fuel as [|fuel IH]; intros l r Hc H.
  - simpl in H. injection H as ->. simpl. lia.
  - cbn [merge_loop greedy_cost] in *. rewrite length_map.
    destruct (Nat.ltb_spec 1 (length l)) as [Hlen|Hlen].
    2:{ injection H as ->. simpl. lia. }
    destruct (merge_step_ok l Hlen) as (a & b & rest & Hs & Hm).
    rewrite Hm in H. cbn [mbind res_bind] in H.
    pose proof (sort_by_key_perm Node_frequency l) as Hperm. rewrite Hs in Hperm.
    assert (Hc' : Forall consistent (a :: b :: rest)) by now rewrite Hperm.
    rewrite (IH _ _ (Forall_consistent_merge _ _ _ Hc') H).
    rewrite <- map_sort_by_key_frequency, Hs. cbn [map].
    rewrite !map_app, total_app. cbn [map].
    inversion Hc' as [|? ? Ha Hc'']; subst. inversion Hc'' as [|? ? Hb _]; subst.
    change (total [cost (merged a b)]) with (cost (merged a b) + 0).
    rewrite (cost_merged a b Ha Hb).
    rewrite <- (total_perm _ _ (Permutation_map cost Hperm)). cbn [map].
    change (Node_frequency (merged a b)) with (Node_frequency a + Node_frequency b).
    change (total (cost a :: cost b :: map cost rest))
      with (cost a + (cost b + total (map cost rest))).
    lia.
Qed.

Lemma cost_leaf_nodes nodes :
  Forall is_leaf_node nodes -> total (map cost nodes) = 0.
Proof.
  induction 1 as [|n nodes (c & f & ->) _ IH]; [reflexivity|].
  cbn [map]. change (total (?x :: ?l)) with (x + total l).
  rewrite IH. unfold cost, wsum. simpl. lia.
Qed.

Lemma is_leaf_node_consistent nodes :
  Forall is_leaf_node nodes -> Forall consistent nodes.
Proof.
  intros H. eapply Forall_impl; [exact H|]. intros n (c & f & ->). constructor.
Qed.

(** X13. The tree built from leaf nodes is a Huffman tree: its weighted path
    length (the sum over the leaves of frequency times depth) is at most that
    of any tree whose nodes have a symbol or two children and whose leaves
    carry the same frequencies. *)
Theorem HuffmanMethod_init_optimal (nodes : list Node) (h : HuffmanMethod)
    (t : Node) :
  Forall is_leaf_node nodes ->
  HuffmanMethod_init nodes = Ok h ->
  proper t -> (leaves t).*2 ≡ₚ map Node_frequency nodes ->
  cost (root h) <= cost t.
Proof.
  intros Hleaf Hi Ht Hperm.
  apply HuffmanMethod_init_inv in Hi as (_ & Hr & _).
  destruct nodes as [|n0 nodes0] eqn:En; [discriminate|]. rewrite <- En in *.
  destruct (create_root_of_tree_total nodes) as (r' & Hloop & Hroot);
    [subst; discriminate|].
  rewrite Hroot in Hr. injection Hr as ->.
  rewrite (merge_loop_cost _ _ _ (is_leaf_node_consistent _ Hleaf) Hloop).
  rewrite (cost_leaf_nodes _ Hleaf), Z.add_0_l.
  rewrite <- (greedy_cost_perm _ _ _ Hperm), <- (leaf_depths_weights t 0).
  apply greedy_cost_lower.
  - rewrite <- (length_fmap fst), leaf_depths_weights, (Permutation_length Hperm).
    now rewrite length_map.
  - now apply realizable_tree.
Qed.

Lemma HuffmanMethod_init_optimal_witness :
  exists h,
    HuffmanMethod_init three_nodes = Ok h /\
    Forall is_leaf_node three_nodes /\
    proper (merged (merged (leaf_node "c" 2) (leaf_node "b" 1)) (leaf_node "a" 1)) /\
    cost (root h) = 6 /\
    cost (merged (merged (leaf_node "c" 2) (leaf_node "b" 1)) (leaf_node "a" 1))
      = 7 /\
    cost (root h)
      <= cost (merged (merged (leaf_node "c" 2) (leaf_node "b" 1))
                 (leaf_node "a" 1)).
Proof.
  eexists. split; [reflexivity|].
  assert (Hleaf : Forall is_leaf_node three_nodes)
    by (repeat constructor; eexists _, _; reflexivity).
  assert (Hp : proper (merged (merged (leaf_node "c" 2) (leaf_node "b" 1))
                         (leaf_node "a" 1))) by (repeat constructor).
  split; [exact Hleaf|]. split; [exact Hp|].
  split; [reflexivity|]. split; [reflexivity|].
  apply (HuffmanMethod_init_optimal three_nodes _ _ Hleaf eq_refl Hp).
  simpl. solve_Permutation.
Defined.

(** ** Which nodes an iteration merges *)

Lemma sort_by_key_head {A : Type} (key : A -> Z) (l : list A) a tail :
  sort_by_key key l = a :: tail ->
  exists l1 l2,
    l = l1 ++ a :: l2 /\
    (forall x, x ∈ l1 -> key a < key x) /\
    (forall x, x ∈ l2 -> key a <= key x) /\
    tail = sort_by_key key (l1 ++ l2).
Proof.
  revert a tail. induction l as [|x l IH]; intros a tail Hs; [discriminate|].
  cbn [sort_by_key] in Hs.
  destruct (sort_by_key key l) as [|a' tail'] eqn:Hl.
  - assert (l = []) as ->.
    { pose proof (sort_by_key_length key l) as H. rewrite Hl in H.
      now destruct l. }
    simpl in Hs. injection Hs as <- <-. exists [], [].
    repeat split; intros y Hy; now apply elem_of_nil in Hy.
  - destruct (IH _ _ eq_refl) as (l1 & l2 & -> & H1 & H2 & ->).
    cbn [insert_by_key] in Hs.
    destruct (Z.leb_spec (key x) (key a')) as [Hle|Hgt].
    + injection Hs as <- <-. exists [], (l1 ++ a' :: l2).
      split; [reflexivity|]. split; [|split].
      * intros y Hy. now apply elem_of_nil in Hy.
      * intros y Hy. apply elem_of_app in Hy as [Hy|Hy].
        -- specialize (H1 y Hy). lia.
        -- apply elem_of_cons in Hy as [->|Hy]; [lia|].
           specialize (H2 y Hy). lia.
      * simpl. now rewrite Hl.
    + injection Hs as <- <-. exists (x :: l1), l2.
      split; [reflexivity|]. split; [|split].
      * intros y Hy. apply elem_of_cons in Hy as [->|Hy]; [lia | auto].
      * exact H2.
      * reflexivity.
Qed.

(** X14. An iteration of the loop of [_create_root_of_tree] takes out the
    first node of smallest frequency, then the first node of smallest
    frequency among the others, makes them the left and the right child of a
    new node that carries the sum of their frequencies, and leaves the list
    with the other nodes in ascending order of frequency (equal ones in the
    order they had) followed by the new node. *)
Theorem merge_step_first_smallest (l : list Node) :
  (1 < length l)%nat ->
  exists a b l1 l2 m1 m2,
    l = l1 ++ a :: l2 /\
    (forall x, x ∈ l1 -> Node_frequency a < Node_frequency x) /\
    (forall x, x ∈ l2 -> Node_frequency a <= Node_frequency x) /\
    l1 ++ l2 = m1 ++ b :: m2 /\
    (forall x, x ∈ m1 -> Node_frequency b < Node_frequency x) /\
    (forall x, x ∈ m2 -> Node_frequency b <= Node_frequency x) /\
    merge_step l =
      Ok (sort_by_key Node_frequency (m1 ++ m2) ++
          [mkNode None (Node_frequency a + Node_frequency b) (Some a) (Some b)]).
Proof.
  intros Hlen.
  destruct (merge_step_ok l Hlen) as (a & b & rest & Hs & Hm).
  destruct (sort_by_key_head _ _ _ _ Hs) as (l1 & l2 & Hl & Ha1 & Ha2 & Htail).
  symmetry in Htail.
  destruct (sort_by_key_head _ _ _ _ Htail) as (m1 & m2 & Hm12 & Hb1 & Hb2 & ->).
  exists a, b, l1, l2, m1, m2. repeat (split; [assumption|]). exact Hm.
Qed.

Lemma merge_step_first_smallest_witness :
  (1 < length [leaf_node "a" 2; leaf_node "b" 1; leaf_node "c" 1])%nat /\
  exists a b l1 l2 m1 m2,
    [leaf_node "a" 2; leaf_node "b" 1; leaf_node "c" 1] = l1 ++ a :: l2 /\
    (forall x, x ∈ l1 -> Node_frequency a < Node_frequency x) /\
    (forall x, x ∈ l2 -> Node_frequency a <= Node_frequency x) /\
    l1 ++ l2 = m1 ++ b :: m2 /\
    (forall x, x ∈ m1 -> Node_frequency b < Node_frequency x) /\
    (forall x, x ∈ m2 -> Node_frequency b <= Node_frequency x) /\
    merge_step [leaf_node "a" 2; leaf_node "b" 1; leaf_node "c" 1] =
      Ok (sort_by_key Node_frequency (m1 ++ m2) ++
          [mkNode None (Node_frequency a + Node_frequency b) (Some a) (Some b)]).
Proof.
  assert (Hl : (1 < length [leaf_node "a" 2; leaf_node "b" 1; leaf_node "c" 1])%nat)
    by (simpl; lia).
  split; [exact Hl|]. exact (merge_step_first_smallest _ Hl).
Defined.

(** ** The constructor on objects and on values *)

(** X15. On node objects in a store, the constructor, [encode_text] and
    [decode_text] compute what they compute from the trees these objects
    form: the same code table, encodings and decodings, whether or not list
    entries share node objects. The list given to the constructor holds the
    same references afterwards, and encoding and decoding leave the store as
    it is. *)
Theorem heap_HuffmanMethod_agrees (depth : nat) (base : Heap.ref)
    (s : Heap.store) (xs : list Heap.ref) (ts : list Node) (h : HuffmanMethod) :
  Heap.list_heap s !! base = Some xs ->
  Forall2 (Heap.repr (Heap.node_heap s)) xs ts ->
  HuffmanMethod_init ts = Ok h ->
  (height (root h) < depth)%nat ->
  exists hh s',
    Heap.run (Heap.HuffmanMethod_init depth base) s = (Ok hh, s') /\
    Heap.base_nodes hh = base /\
    Heap.code_dict hh = code_dict h /\
    Heap.list_heap s' !! base = Some xs /\
    (forall text,
       Heap.run (Heap.encode_text hh text) s' = (Ok (encode_text h text), s')) /\
    (forall bits,
       Heap.run (Heap.decode_text hh bits) s' = (decode_text h bits, s')).
Proof.
  intros Hb Hrep Hi Hd.
  pose proof (HuffmanMethod_init_refines depth base s xs ts Hb Hrep) as Href.
  destruct (HuffmanMethod_init_inv _ _ Hi) as (_ & Hroot & _).
  rewrite Hi in Href.
  destruct Href as (hh & s' & Hrun & Hbase & Hr & Hdict).
  { intros t Ht. rewrite Hroot in Ht. now injection Ht as <-. }
  exists hh, s'. split; [exact Hrun|]. split; [exact Hbase|].
  split; [exact Hdict|]. split; [|split].
  - unfold Heap.HuffmanMethod_init in Hrun. rewrite run_bind in Hrun.
    destruct (create_root_of_tree_keeps base s) as [_ Hlists].
    destruct (Heap.run (Heap.create_root_of_tree base) s) as [[r|e] s1];
      [|discriminate].
    rewrite run_bind in Hrun.
    pose proof (generate_codes_reads depth (Some r) "" ∅ s1) as Hg.
    destruct (Heap.run (Heap.generate_codes depth (Some r) "" ∅) s1)
      as [[d|e] s2]; [|discriminate].
    simpl in Hg. subst s2. simpl in Hrun. injection Hrun as _ <-.
    now apply Hlists.
  - intros text. unfold Heap.encode_text, encode_text. now rewrite Hdict.
  - intros bits. unfold Heap.decode_text, decode_text.
    rewrite run_bind, (decode_loop_refines bits s' _ _ (root h) (root h)) by assumption.
    now destruct (decode_loop (root h) (root h) bits []).
Qed.

Lemma heap_HuffmanMethod_agrees_witness :
  exists h hh s',
    HuffmanMethod_init two_nodes = Ok h /\
    Heap.list_heap Heap.two_leaves !! 0%nat = Some [0%nat; 1%nat] /\
    Forall2 (Heap.repr (Heap.node_heap Heap.two_leaves)) [0%nat; 1%nat] two_nodes /\
    (height (root h) < 10)%nat /\
    Heap.run (Heap.HuffmanMethod_init 10 0%nat) Heap.two_leaves = (Ok hh, s') /\
    Heap.code_dict hh = code_dict h /\
    Heap.list_heap s' !! 0%nat = Some [0%nat; 1%nat] /\
    Heap.run (Heap.decode_text hh "011") s' = (decode_text h "011", s').
Proof.
  assert (Hrep : Forall2 (Heap.repr (Heap.node_heap Heap.two_leaves))
                   [0%nat; 1%nat] two_nodes).
  { repeat constructor; econstructor; (reflexivity || constructor). }
  assert (Hd : (height (merged (leaf_node "a" 1) (leaf_node "b" 1)) < 10)%nat)
    by (simpl; lia).
  destruct (heap_HuffmanMethod_agrees 10 0%nat Heap.two_leaves [0%nat; 1%nat]
              two_nodes
              (mkHuffmanMethod two_nodes
                 (merged (leaf_node "a" 1) (leaf_node "b" 1))
                 (<["b" := "1"]> (<["a" := "0"]> ∅)))
              eq_refl Hrep eq_refl Hd)
    as (hh & s' & Hrun & _ & Hdict & Hlist & _ & Hdec).
  eexists _, hh, s'. split; [reflexivity|].
  split; [reflexivity|]. split; [exact Hrep|]. split; [exact Hd|].
  split; [exact Hrun|]. split; [exact Hdict|]. split; [exact Hlist|].
  apply Hdec.
Defined.
